(** * RAG backend: chunking, stores, context assembly and answer pipeline

    A shallow embedding of the Python backend
    ([document_processor.py], [main_ephemeral.py], [ephemeral_store.py],
    [vector_store.py], [rag_pipeline.py]) together with the properties
    its specification states about it.

    Conventions.  A Python [str] is a list of characters; a character is
    one of the 256 values of [ascii], read as a Latin-1 code point.  A
    Python [int] is a [Z].  A [while] loop that the source does not bound
    is run with fuel: [None] means the fuel ran out before the loop
    exited, [Some r] that the function returned [r]. *)

From Stdlib Require Import ZArith List Ascii String Bool Lia.
From Stdlib Require Import Sorting.Sorted Sorting.Permutation.
From Stdlib Require DecimalString DecimalPos DecimalZ.
Import ListNotations.

#[local] Open Scope Z_scope.

(** ** Python primitives *)

Module Py.

Definition str := list ascii.

Definition lit (s : string) : str := list_ascii_of_string s.

Definition len {A : Type} (l : list A) : Z := Z.of_nat (List.length l).

(** [ord c] as an integer. *)
Definition ord (c : ascii) : Z := Z.of_N (N_of_ascii c).

Definition chr (z : Z) : ascii := ascii_of_N (Z.to_N z).

(** [c.isspace()] on Latin-1: TAB..CR, FS..US, SPACE, NEL and NBSP. *)
Definition isspace (c : ascii) : bool :=
  let n := ord c in
  ((9 <=? n) && (n <=? 13)) || ((28 <=? n) && (n <=? 32))
  || (n =? 133) || (n =? 160).

(** Index normalisation of a slice bound: a negative bound counts from
    the end, and the result is clamped into [0, L]. *)
Definition clamp (L i : Z) : Z :=
  if i <? 0 then Z.max (i + L) 0 else Z.min i L.

(** [s[lo:hi]] *)
Definition slice {A : Type} (s : list A) (lo hi : Z) : list A :=
  let L := len s in
  let a := clamp L lo in
  let b := clamp L hi in
  firstn (Z.to_nat (b - a)) (skipn (Z.to_nat a) s).

(** [s[:hi]] *)
Definition slice_to {A : Type} (s : list A) (hi : Z) : list A :=
  slice s 0 hi.

Fixpoint lstrip (s : str) : str :=
  match s with
  | c :: r => if isspace c then lstrip r else s
  | [] => []
  end.

Definition rstrip (s : str) : str := rev (lstrip (rev s)).

(** [s.strip()] *)
Definition strip (s : str) : str := rstrip (lstrip s).

(** Truth value of a string: non-empty. *)
Definition truthy {A : Type} (s : list A) : bool :=
  match s with [] => false | _ => true end.

Definition eqb_char (a b : ascii) : bool := Ascii.eqb a b.

Fixpoint eqb_str (a b : str) : bool :=
  match a, b with
  | [], [] => true
  | x :: a', y :: b' => eqb_char x y && eqb_str a' b'
  | _, _ => false
  end.

(** [s.startswith(p)] *)
Fixpoint startswith (p s : str) : bool :=
  match p, s with
  | [], _ => true
  | x :: p', y :: s' => eqb_char x y && startswith p' s'
  | _ :: _, [] => false
  end.

(** [p in s] *)
Fixpoint contains (p s : str) : bool :=
  startswith p s ||
  match s with
  | [] => false
  | _ :: s' => contains p s'
  end.

(** [s.rfind(p)]: the highest index at which [p] occurs in [s], or
    [-1]. *)
Fixpoint rfind (p s : str) : Z :=
  match s with
  | [] => if startswith p [] then 0 else -1
  | _ :: s' =>
      let r := rfind p s' in
      if 0 <=? r then r + 1
      else if startswith p s then 0 else -1
  end.

(** [c.lower()] on Latin-1: A-Z and the accented capitals U+00C0 to
    U+00DE, the multiplication sign U+00D7 apart. *)
Definition lower_char (c : ascii) : ascii :=
  let n := ord c in
  if ((65 <=? n) && (n <=? 90))
     || ((192 <=? n) && (n <=? 222) && negb (n =? 215))
  then chr (n + 32) else c.

Definition lower (s : str) : str := map lower_char s.

(** [s.split()]: the maximal runs of non-space characters.  [cur] is
    the run being read, in reverse. *)
Fixpoint split_aux (cur : str) (s : str) : list str :=
  match s with
  | [] => match cur with [] => [] | _ => [rev cur] end
  | c :: r =>
      if isspace c
      then match cur with
           | [] => split_aux [] r
           | _ => rev cur :: split_aux [] r
           end
      else split_aux (c :: cur) r
  end.

Definition split (s : str) : list str := split_aux [] s.

Definition mem (w : str) (l : list str) : bool := existsb (eqb_str w) l.

(** [set(l)] as a duplicate-free list, first occurrences kept. *)
Fixpoint set_of (l : list str) : list str :=
  match l with
  | [] => []
  | w :: r => if mem w r then set_of r else w :: set_of r
  end.

(** [len(a & b)] for two sets. *)
Definition inter_size (a b : list str) : Z :=
  len (filter (fun w => mem w b) a).

(** [str(n)] for an integer. *)
Definition str_of_int (n : Z) : str :=
  lit (DecimalString.NilZero.string_of_int (Z.to_int n)).

(** [sep.join(parts)] *)
Fixpoint join (sep : str) (parts : list str) : str :=
  match parts with
  | [] => []
  | [p] => p
  | p :: rest => p ++ sep ++ join sep rest
  end.

(** Lexicographic [a < b] and [a <= b] on strings, by code point. *)
Fixpoint ltb_str (a b : str) : bool :=
  match a, b with
  | [], [] => false
  | [], _ :: _ => true
  | _ :: _, [] => false
  | x :: a', y :: b' =>
      if ord x <? ord y then true
      else if ord y <? ord x then false
      else ltb_str a' b'
  end.

Definition leb_str (a b : str) : bool := negb (ltb_str b a).

(** [sorted(l)] on strings. *)
Fixpoint insert_str (x : str) (l : list str) : list str :=
  match l with
  | [] => [x]
  | y :: r => if ltb_str x y then x :: l else y :: insert_str x r
  end.

Fixpoint sorted (l : list str) : list str :=
  match l with
  | [] => []
  | x :: r => insert_str x (sorted r)
  end.

(** The newline character as a string. *)
Definition nl : str := [ "010"%char ].

End Py.

Import Py.

(** ** Chunk records *)

Record Chunk : Type := mkChunk {
  text : str;
  chunk_id : Z;
  start_char : Z;
  end_char : Z
}.

(** ** The chunking walk

    Both chunkers keep the same three locals ([start], the id counter and
    the list of chunks) and run the same loop around their body:

      while start < L:
          <body>
          if start >= L:
              break
*)

Record walk : Type := mkWalk {
  w_start : Z;
  w_id : Z;
  w_chunks : list Chunk
}.

Section While.
Variable L : Z.
Variable body : walk -> walk.

Fixpoint while_start (fuel : nat) (s : walk) : option (list Chunk) :=
  if w_start s <? L then
    match fuel with
    | O => None
    | S fuel' =>
        let s' := body s in
        if L <=? w_start s' then Some (w_chunks s')
        else while_start fuel' s'
    end
  else Some (w_chunks s).
End While.

(** [if chunk: chunks.append({...}); id += 1] *)
Definition emit (s : walk) (chunk : str) (start end_ : Z) : Z * list Chunk :=
  if truthy chunk
  then (w_id s + 1, w_chunks s ++ [mkChunk chunk (w_id s) start end_])
  else (w_id s, w_chunks s).

(** ** [document_processor.py] *)

Module DocumentProcessor.

Definition max_text_length : Z := 1000000.

Definition delimiters : list str :=
  [lit ". "; [ "." ; "010" ]%char; lit "! "; [ "?" ; "010" ]%char].

(** The [for delimiter in ...] loop of [chunk_text]: the first delimiter
    whose last occurrence lies in the back half of the window moves
    [end_] to just after it.  [last_delimiter > len(chunk_text) * 0.5]
    compares an integer with an exact half, so it reads
    [2 * last_delimiter > len(chunk_text)]. *)
Fixpoint break_at (ds : list str) (chunk : str) (start end_ : Z) : Z :=
  match ds with
  | [] => end_
  | d :: ds' =>
      let last_delimiter := rfind d chunk in
      if negb (last_delimiter =? -1) && (len chunk <? 2 * last_delimiter)
      then start + last_delimiter + len d
      else break_at ds' chunk start end_
  end.

Section Loop.
Variables (chunk_size chunk_overlap : Z).
Variable txt : str.

(** The window end of one iteration, after the sentence heuristic. *)
Definition window_end (start : Z) : Z :=
  let text_length := len txt in
  let end_ := start + chunk_size in
  let end_ := if text_length <? end_ then text_length else end_ in
  let chunk := slice txt start end_ in
  if (end_ <? text_length) && (50 <? len chunk)
  then break_at delimiters chunk start end_
  else end_.

(** One pass through the body of the [while], up to and including
    [start = end - self.chunk_overlap]. *)
Definition body (s : walk) : walk :=
  let start := w_start s in
  let end_ := window_end start in
  let chunk := slice txt start end_ in
  let '(cid, chunks) := emit s (strip chunk) start end_ in
  mkWalk (end_ - chunk_overlap) cid chunks.

End Loop.

(** The text the loop walks: the input, cut at [max_text_length]. *)
Definition truncated (txt : str) : str :=
  if max_text_length <? len txt
  then slice_to txt max_text_length else txt.

Definition chunk_text (chunk_size chunk_overlap : Z) (fuel : nat)
    (txt : str) : option (list Chunk) :=
  if negb (truthy txt) || (len (strip txt) =? 0) then Some []
  else
    let txt' := truncated txt in
    while_start (len txt') (body chunk_size chunk_overlap txt')
      fuel (mkWalk 0 0 []).

End DocumentProcessor.

(** ** [ephemeral_store.py] *)

Module EphemeralStore.

(** [self.documents]: a [dict], which keeps its keys in insertion
    order; assigning to a key that is present keeps its position. *)
Definition documents := list (str * list Chunk).

Definition init : documents := [].

Fixpoint setitem (d : documents) (k : str) (v : list Chunk) : documents :=
  match d with
  | [] => [(k, v)]
  | (k', v') :: r =>
      if eqb_str k' k then (k, v) :: r else (k', v') :: setitem r k v
  end.

Definition add_documents (d : documents) (chunks : list Chunk)
    (filename : str) : documents :=
  setitem d filename chunks.

Record Hit : Type := mkHit {
  hit_text : str;
  hit_filename : str;
  hit_chunk_id : Z;
  hit_score : Z
}.

(** The score of one chunk text, as the inner loop body computes it. *)
Definition score (q : str) (q_words : list str) (text_ : str) : Z :=
  let t := lower text_ in
  let score := 0 in
  let score := if contains q t then score + 10 else score in
  score + inter_size q_words (set_of (split t)).

(** The list [scored] when the two [for] loops are done. *)
Definition scored (d : documents) (q : str) (q_words : list str)
    : list Hit :=
  flat_map (fun '(fname, chunks) =>
    flat_map (fun chunk =>
      let sc := score q q_words (text chunk) in
      if 0 <? sc
      then [mkHit (text chunk) fname (chunk_id chunk) sc]
      else []) chunks) d.

(** [list.sort(key=..., reverse=True)]: by descending key, and stable,
    elements with equal keys keeping their order. *)
Fixpoint insert_desc (x : Hit) (l : list Hit) : list Hit :=
  match l with
  | [] => [x]
  | y :: r =>
      if hit_score y <=? hit_score x then x :: l
      else y :: insert_desc x r
  end.

Fixpoint sort_desc (l : list Hit) : list Hit :=
  match l with
  | [] => []
  | x :: r => insert_desc x (sort_desc r)
  end.

Definition search (d : documents) (query : str) (top_k : Z) : list Hit :=
  if negb (truthy d) then []
  else
    let q := lower query in
    let q_words := set_of (split q) in
    slice_to (sort_desc (scored d q q_words)) top_k.

Definition list_documents (d : documents) : list str := map fst d.

Definition delete_document (d : documents) (filename : str) : documents :=
  filter (fun kv => negb (eqb_str (fst kv) filename)) d.

Definition clear (d : documents) : documents := [].

Record Stats : Type := mkStats {
  total_documents : Z;
  total_chunks : Z
}.

Definition stats (d : documents) : Stats :=
  mkStats (len d) (fold_right Z.add 0 (map (fun kv => len (snd kv)) d)).

End EphemeralStore.

(** ** [main_ephemeral.py] *)

Module MainEphemeral.


Section Loop.
Variables (chunk_size overlap : Z).
Variable txt : str.

Definition window_end (start : Z) : Z :=
  let L := len txt in
  let end_ := start + chunk_size in
  if L <? end_ then L else end_.

(** The body, up to and including [start = max(end - overlap, end)]. *)
Definition body (s : walk) : walk :=
  let start := w_start s in
  let end_ := window_end start in
  let chunk := strip (slice txt start end_) in
  let '(cid, chunks) := emit s chunk start end_ in
  mkWalk (Z.max (end_ - overlap) end_) cid chunks.

End Loop.

Definition chunk_text (chunk_size overlap : Z) (fuel : nat) (txt : str)
    : option (list Chunk) :=
  let txt := strip txt in
  if negb (truthy txt) then Some []
  else
    while_start (len txt) (body chunk_size overlap txt)
      fuel (mkWalk 0 0 []).

(** [query]: the context built from the hits,
    [f"[Source {i+1} from {h['metadata']['filename']}]:\n{h['text']}"]
    for [i, h in enumerate(hits)], joined by two newlines. *)
Definition block (i : Z) (h : EphemeralStore.Hit) : str :=
  lit "[Source " ++ str_of_int (i + 1) ++ lit " from "
  ++ EphemeralStore.hit_filename h ++ lit "]:" ++ nl
  ++ EphemeralStore.hit_text h.

Fixpoint blocks (i : Z) (hits : list EphemeralStore.Hit) : list str :=
  match hits with
  | [] => []
  | h :: r => block i h :: blocks (i + 1) r
  end.

Definition context (hits : list EphemeralStore.Hit) : str :=
  join (nl ++ nl) (blocks 0 hits).

(** [HTTPException(status_code=..., detail=...)] *)
Record HTTPException : Type := mkHTTPException {
  status_code : Z;
  detail : str
}.

Record Source : Type := mkSource {
  s_filename : str;
  s_chunk_id : Z;
  s_text : str
}.

Record QueryResponse : Type := mkQueryResponse {
  qr_answer : str;
  qr_sources : list Source
}.


(** [(h["text"][:200]+"...") if len(h["text"])>200 else h["text"]] *)
Definition source_text (t : str) : str :=
  if 200 <? len t then slice_to t 200 ++ lit "..." else t.

Definition make_source (h : EphemeralStore.Hit) : Source :=
  mkSource (EphemeralStore.hit_filename h) (EphemeralStore.hit_chunk_id h)
    (source_text (EphemeralStore.hit_text h)).

Definition make_prompt (context q : str) : str :=
  lit "You are a helpful assistant. Use the context to answer. Context:"
  ++ nl ++ context ++ nl ++ nl ++ lit "Question: " ++ q ++ nl ++ nl
  ++ lit "Answer concisely based only on the context.".

Section Endpoints.
(** The module-level [client], [None] when no key is set; a call of it
    is [chat.completions.create] on the model with the prompt as the one
    user message, and the content of the first choice.  It returns the
    content, or raises an exception, of which [str(e)] is kept. *)
Variable client : option (str -> str -> str + str).
Variable GROQ_MODEL : str.

(** [query]: an [HTTPException] raised, or the response. *)
Definition query (store : EphemeralStore.documents) (question : str)
    : HTTPException + QueryResponse :=
  let q := strip question in
  if negb (truthy q) then
    inl (mkHTTPException 400 (lit "Question cannot be empty"))
  else
    let hits := EphemeralStore.search store q 3 in
    if negb (truthy hits) then
      inr (mkQueryResponse (lit "No documents indexed. Upload docs first.") [])
    else
      let context := context hits in
      let prompt := make_prompt context q in
      match client with
      | None =>
          inl (mkHTTPException 500
                 (lit "Groq/OpenAI client not configured. Set GROQ_API_KEY in .env or environment and restart the server."))
      | Some create =>
          let answer :=
            match create GROQ_MODEL prompt with
            | inr content => content
            | inl e => lit "Generation error: " ++ e
            end in
          let sources := map make_source hits in
          inr (mkQueryResponse answer sources)
      end.

End Endpoints.


End MainEphemeral.


(** ** [vector_store.py] *)

Module VectorStore.

Record Metadata : Type := mkMetadata {
  md_filename : str;
  md_chunk_id : Z;
  md_start_char : Z;
  md_end_char : Z
}.

(** What the index does when [add] is given an id it already holds.
    The index is an external library and its releases differ here: the
    record is left as it is, the call raises, or the record is
    overwritten. *)
Inductive on_existing : Type := Skip | Reject | Replace.

Section Store.
(** [self.embedding_model.encode] and the type of its vectors. *)
Variable embedding : Type.
Variable encode : str -> embedding.
Variable policy : on_existing.

Record Entry : Type := mkEntry {
  e_id : str;
  e_embedding : embedding;
  e_document : str;
  e_metadata : Metadata
}.

(** [self.collection]: the records of the index, keyed by id. *)
Definition collection := list Entry.

Definition has_id (c : collection) (i : str) : bool :=
  existsb (fun e => eqb_str (e_id e) i) c.

Definition put (c : collection) (e : Entry) : collection :=
  map (fun e' => if eqb_str (e_id e') (e_id e) then e else e') c.

(** [collection.add] of one record; [None] when the call raises. *)
Definition add_one (c : collection) (e : Entry) : option collection :=
  if has_id c (e_id e) then
    match policy with
    | Skip => Some c
    | Reject => None
    | Replace => Some (put c e)
    end
  else Some (c ++ [e]).

Fixpoint collection_add (c : collection) (es : list Entry)
    : option collection :=
  match es with
  | [] => Some c
  | e :: r =>
      match add_one c e with
      | Some c' => collection_add c' r
      | None => None
      end
  end.

(** [f"{filename}_{chunk['chunk_id']}"] *)
Definition make_id (filename : str) (chunk : Chunk) : str :=
  filename ++ lit "_" ++ str_of_int (chunk_id chunk).

Definition make_entry (filename : str) (chunk : Chunk) : Entry :=
  mkEntry (make_id filename chunk) (encode (text chunk)) (text chunk)
    (mkMetadata filename (chunk_id chunk) (start_char chunk)
       (end_char chunk)).

(** [add_documents]: the four parallel lists [ids], [embeddings],
    [texts] and [metadatas] are built from [chunks] and handed to the
    index record by record.  [None] when the index raises, in which
    case the collection is as before. *)
Definition add_documents (c : collection) (chunks : list Chunk)
    (filename : str) : option collection :=
  collection_add c (map (make_entry filename) chunks).

Definition delete_document (c : collection) (filename : str)
    : collection :=
  let ids :=
    map e_id
      (filter (fun e => eqb_str (md_filename (e_metadata e)) filename) c)
  in
  if truthy ids
  then filter (fun e => negb (mem (e_id e) ids)) c
  else c.

Definition list_documents (c : collection) : list str :=
  let metadatas := map e_metadata c in
  if negb (truthy metadatas) then []
  else
    let filenames := set_of (map md_filename metadatas) in
    sorted filenames.

Record Stats : Type := mkStats {
  total_chunks : Z;
  total_documents : Z;
  documents : list str
}.

Definition get_collection_stats (c : collection) : Stats :=
  let count := len c in
  let documents := list_documents c in
  mkStats count (len documents) documents.

End Store.

Arguments e_id {embedding} _.
Arguments e_embedding {embedding} _.
Arguments e_document {embedding} _.
Arguments e_metadata {embedding} _.
Arguments mkEntry {embedding} _ _ _ _.
Arguments has_id {embedding} _ _.
Arguments list_documents {embedding} _.
Arguments delete_document {embedding} _ _.
Arguments get_collection_stats {embedding} _.
Arguments add_documents {embedding} _ _ _ _ _.

End VectorStore.

(** ** [rag_pipeline.py] *)

Module RAGPipeline.

(** The exceptions the handlers tell apart: those of the class
    [requests.exceptions.RequestException], and every other
    [Exception].  Each carries its [str(e)]. *)
Inductive exn : Type :=
| RequestException (msg : str)
| OtherException (msg : str).

Definition str_of_exn (e : exn) : str :=
  match e with RequestException m | OtherException m => m end.

(** A call that may raise. *)
Definition result (A : Type) : Type := (exn + A)%type.

Definition bind {A B : Type} (r : result A) (k : A -> result B)
    : result B :=
  match r with inl e => inl e | inr a => k a end.

Notation "x <- r ;; k" := (bind r (fun x => k))
  (at level 61, r at next level, right associativity).

Record Settings : Type := mkSettings {
  llm_provider : str;
  openai_api_key : str;
  ollama_base_url : str;
  ollama_model : str;
  groq_api_key : str;
  groq_model : str
}.

Record Source : Type := mkSource {
  src_text : str;
  src_filename : str;
  src_chunk_id : Z
}.

Record Answer : Type := mkAnswer {
  answer : str;
  sources : list Source
}.

Section Pipeline.
(** The type of the distances the index reports. *)
Variable distance : Type.

Record Doc : Type := mkDoc {
  doc_text : str;
  doc_metadata : VectorStore.Metadata;
  doc_distance : option distance
}.

Variable settings : Settings.

(** [self.vector_store.search(question, top_k=top_k)] *)
Variable search : str -> Z -> result (list Doc).

(** The body of the [try] of [_generate_with_ollama]:
    [requests.post(url, json={model, prompt, stream}, timeout=60)],
    [raise_for_status()] and [response.json()['response']]. *)
Variable ollama_generate : str -> str -> str -> result str.

(** The body of the [try] of [_generate_with_openai] and of
    [_generate_with_groq]: the client built from the key and, for
    Groq, the base URL; then [chat.completions.create] on the model
    with the system and the user message, and the content of the
    first choice. *)
Variable chat_complete :
  str -> option str -> str -> str -> str -> result str.

Definition no_documents_message : str :=
  lit "I don't have any documents to answer this question. Please upload some documents first.".

Definition block (i : Z) (doc : Doc) : str :=
  lit "[Source " ++ str_of_int i ++ lit " from "
  ++ VectorStore.md_filename (doc_metadata doc) ++ lit "]:" ++ nl
  ++ doc_text doc.

(** The [for i, doc in enumerate(retrieved_docs, 1)] loop: [parts] is
    [context_parts] so far. *)
Fixpoint context_loop (i : Z) (parts : list str) (docs : list Doc)
    : list str :=
  match docs with
  | [] => parts
  | doc :: r => context_loop (i + 1) (parts ++ [block i doc]) r
  end.

Definition _prepare_context (retrieved_docs : list Doc) : str :=
  let context_parts := context_loop 1 [] retrieved_docs in
  join (nl ++ nl) context_parts.

Definition _create_prompt (question context : str) : str :=
  lit "You are a helpful assistant. Answer the question based on the provided context."
  ++ nl ++ nl ++ lit "Context:" ++ nl ++ context ++ nl ++ nl
  ++ lit "Question: " ++ question ++ nl ++ nl
  ++ lit "Answer: Provide a clear and concise answer based solely on the context provided. If the context doesn't contain relevant information, say so.".

Definition _generate_with_ollama (prompt : str) : str :=
  match
    ollama_generate
      (ollama_base_url settings ++ lit "/api/generate")
      (ollama_model settings) prompt
  with
  | inr response => response
  | inl (RequestException e) =>
      lit "Error connecting to Ollama: " ++ e
      ++ lit ". Make sure Ollama is running."
  | inl (OtherException e) => lit "Error generating answer: " ++ e
  end.

Definition user_message (question context : str) : str :=
  lit "Context:" ++ nl ++ context ++ nl ++ nl
  ++ lit "Question: " ++ question.

Definition _generate_with_openai (question context : str) : str :=
  match
    chat_complete (openai_api_key settings) None (lit "gpt-3.5-turbo")
      (lit "You are a helpful assistant. Answer questions based on the provided context.")
      (user_message question context)
  with
  | inr content => content
  | inl e => lit "Error generating answer with OpenAI: " ++ str_of_exn e
  end.

Definition _generate_with_groq (question context : str) : str :=
  match
    chat_complete (groq_api_key settings)
      (Some (lit "https://api.groq.com/openai/v1"))
      (groq_model settings)
      (lit "You are a helpful assistant. Answer questions based on the provided context. Be concise and accurate.")
      (user_message question context)
  with
  | inr content => content
  | inl e => lit "Error generating answer with Groq: " ++ str_of_exn e
  end.

Definition _generate_with_llm (question context : str) : str :=
  let prompt := _create_prompt question context in
  if eqb_str (llm_provider settings) (lit "ollama")
  then _generate_with_ollama prompt
  else if eqb_str (llm_provider settings) (lit "openai")
  then _generate_with_openai question context
  else if eqb_str (llm_provider settings) (lit "groq")
  then _generate_with_groq question context
  else lit "LLM provider not configured correctly.".

(** [doc['text'][:200] + '...' if len(doc['text']) > 200 else doc['text']] *)
Definition source_text (t : str) : str :=
  if 200 <? len t then slice_to t 200 ++ lit "..." else t.

Definition make_source (doc : Doc) : Source :=
  mkSource (source_text (doc_text doc))
    (VectorStore.md_filename (doc_metadata doc))
    (VectorStore.md_chunk_id (doc_metadata doc)).

Definition generate_answer (question : str) (top_k : Z)
    : result Answer :=
  retrieved_docs <- search question top_k ;;
  if negb (truthy retrieved_docs) then
    inr (mkAnswer no_documents_message [])
  else
    let context := _prepare_context retrieved_docs in
    let answer := _generate_with_llm question context in
    let sources := map make_source retrieved_docs in
    inr (mkAnswer answer sources).

End Pipeline.

Arguments doc_text {distance} _.
Arguments doc_metadata {distance} _.
Arguments doc_distance {distance} _.
Arguments mkDoc {distance} _ _ _.

End RAGPipeline.

(** ** What the specification asks of a chunk sequence *)

(** [0 <= start_char < end_char <= L] *)
Definition in_bounds (L : Z) (c : Chunk) : Prop :=
  0 <= start_char c /\ start_char c < end_char c /\ end_char c <= L.

(** Chunks come in strictly increasing [start_char] order. *)
Definition increasing_starts (cs : list Chunk) : Prop :=
  StronglySorted (fun a b => start_char a < start_char b) cs.

(** The ids are 0, 1, 2, ... *)
Definition dense_ids (cs : list Chunk) : Prop :=
  map chunk_id cs = map Z.of_nat (seq 0 (List.length cs)).

Definition well_formed (L : Z) (cs : list Chunk) : Prop :=
  Forall (in_bounds L) cs /\ increasing_starts cs /\ dense_ids cs.

(** No window reaches into a later one. *)
Definition apart (cs : list Chunk) : Prop :=
  StronglySorted (fun a b => end_char a <= start_char b) cs.

(** Each chunk starts at or after the end of the one before it. *)
Definition no_overlap (cs : list Chunk) : Prop :=
  Sorted (fun a b => end_char a <= start_char b) cs.

(** The invariant of a walk whose next start never precedes the end of
    the window just read. *)
Definition walk_ok (L : Z) (s : walk) : Prop :=
  0 <= w_start s /\
  w_id s = len (w_chunks s) /\
  Forall (in_bounds L) (w_chunks s) /\
  apart (w_chunks s) /\
  dense_ids (w_chunks s) /\
  Forall (fun c => end_char c <= w_start s) (w_chunks s).

(** ** What the specification asks of the lexical score *)

(** [p] occurs in [s]. *)
Definition substring (p s : str) : Prop := exists a b, s = a ++ p ++ b.

(** [ws] lists, once each, the words that [q] and [t] share. *)
Definition shared_words (q t : str) (ws : list str) : Prop :=
  NoDup ws /\ forall w, In w ws <-> In w (split q) /\ In w (split t).

(** [n] is ten times the substring indicator plus the number of distinct
    shared words, everything lower-cased. *)
Definition spec_score (query text_ : str) (n : Z) : Prop :=
  exists bonus ws,
    (substring (lower query) (lower text_) /\ bonus = 1 \/
     ~ substring (lower query) (lower text_) /\ bonus = 0) /\
    shared_words (lower query) (lower text_) ws /\
    n = 10 * bonus + len ws.

(** Every stored chunk as a hit, in insertion order, whatever its
    score. *)
Definition all_hits (d : EphemeralStore.documents) (query : str)
    : list EphemeralStore.Hit :=
  flat_map (fun '(fname, chunks) =>
    map (fun chunk =>
      EphemeralStore.mkHit (text chunk) fname (chunk_id chunk)
        (EphemeralStore.score (lower query) (set_of (split (lower query)))
           (text chunk))) chunks) d.

(** [a] may come before [b] in a ranking by descending score. *)
Definition desc (a b : EphemeralStore.Hit) : Prop :=
  EphemeralStore.hit_score b <= EphemeralStore.hit_score a.

(** ** What the specification asks of a document listing *)

Definition lt_str (a b : str) : Prop := ltb_str a b = true.

(** Sorted lexicographically, no name twice. *)
Definition sorted_names (l : list str) : Prop := StronglySorted lt_str l.

(** ** What the specification asks of a failed generation *)

(** The call that the configured backend makes for [question] and
    [context] raises [e]. *)
Definition backend_call_fails
    (settings : RAGPipeline.Settings)
    (ollama_generate : str -> str -> str -> RAGPipeline.result str)
    (chat_complete :
       str -> option str -> str -> str -> str -> RAGPipeline.result str)
    (question context : str) (e : RAGPipeline.exn) : Prop :=
  (RAGPipeline.llm_provider settings = lit "ollama" /\
   ollama_generate
     (RAGPipeline.ollama_base_url settings ++ lit "/api/generate")
     (RAGPipeline.ollama_model settings)
     (RAGPipeline._create_prompt question context) = inl e)
  \/
  (RAGPipeline.llm_provider settings = lit "openai" /\
   chat_complete (RAGPipeline.openai_api_key settings) None
     (lit "gpt-3.5-turbo")
     (lit "You are a helpful assistant. Answer questions based on the provided context.")
     (RAGPipeline.user_message question context) = inl e)
  \/
  (RAGPipeline.llm_provider settings = lit "groq" /\
   chat_complete (RAGPipeline.groq_api_key settings)
     (Some (lit "https://api.groq.com/openai/v1"))
     (RAGPipeline.groq_model settings)
     (lit "You are a helpful assistant. Answer questions based on the provided context. Be concise and accurate.")
     (RAGPipeline.user_message question context) = inl e).

(** ** Sample inputs *)

(** A document of 1200 characters. *)
Definition doc1200 : str := repeat "a"%char 1200.

Definition hello : str := lit "hello".

(** [n] passes through a loop body. *)
Fixpoint passes (n : nat) (body : walk -> walk) (s : walk) : walk :=
  match n with
  | O => s
  | S n' => passes n' body (body s)
  end.

(** The collection after a call of [add_documents]: the new one, or
    the one before when the call raised. *)
Definition after_add {embedding : Type} (encode : str -> embedding)
    (policy : VectorStore.on_existing)
    (c : VectorStore.collection embedding) (chunks : list Chunk)
    (filename : str) : VectorStore.collection embedding :=
  match VectorStore.add_documents encode policy c chunks filename with
  | Some c' => c'
  | None => c
  end.

Definition one : Chunk := mkChunk (lit "one") 0 0 3.
Definition two : Chunk := mkChunk (lit "two") 1 3 6.
Definition uno : Chunk := mkChunk (lit "uno") 0 0 3.

Definition cat_chunk : Chunk := mkChunk (lit "the cat sat") 0 0 11.
Definition dog_chunk : Chunk := mkChunk (lit "a dog ran") 1 11 20.

Definition pets : EphemeralStore.documents :=
  EphemeralStore.add_documents EphemeralStore.init
    [cat_chunk; dog_chunk] (lit "pets.txt").

Definition groq_settings : RAGPipeline.Settings :=
  RAGPipeline.mkSettings (lit "groq") [] (lit "http://localhost:11434")
    (lit "llama2") [] (lit "llama-3.1-70b-versatile").

Definition one_doc : list (RAGPipeline.Doc unit) :=
  [RAGPipeline.mkDoc (lit "the cat sat")
     (VectorStore.mkMetadata (lit "pets.txt") 0 0 11) None].

(** ** Stores that the operations can build *)

(** The in-memory stores that a run of the server can hold. *)
Inductive reachable : EphemeralStore.documents -> Prop :=
| reach_init : reachable EphemeralStore.init
| reach_add d chunks f :
    reachable d -> reachable (EphemeralStore.add_documents d chunks f)
| reach_delete d f :
    reachable d -> reachable (EphemeralStore.delete_document d f)
| reach_clear d :
    reachable d -> reachable (EphemeralStore.clear d).

(** The chunks stored under a filename, if any. *)
Fixpoint stored (d : EphemeralStore.documents) (f : str)
    : option (list Chunk) :=
  match d with
  | [] => None
  | (k, v) :: r => if eqb_str k f then Some v else stored r f
  end.

(** The id of a record is the one [add_documents] gives to its
    metadata. *)
Definition id_matches {embedding : Type}
    (e : VectorStore.Entry embedding) : Prop :=
  VectorStore.e_id e
  = VectorStore.md_filename (VectorStore.e_metadata e) ++ lit "_"
    ++ str_of_int (VectorStore.md_chunk_id (VectorStore.e_metadata e)).

(** A collection in which every id matches and no id occurs twice. *)
Definition consistent {embedding : Type}
    (c : VectorStore.collection embedding) : Prop :=
  Forall id_matches c /\ NoDup (map VectorStore.e_id c).

(** The records of a collection that belong to a filename. *)
Definition entries_of {embedding : Type}
    (c : VectorStore.collection embedding) (f : str)
    : list (VectorStore.Entry embedding) :=
  filter (fun e =>
            eqb_str (VectorStore.md_filename (VectorStore.e_metadata e)) f) c.

(** ** Positions and windows *)

(** The character at position [p]. *)
Definition char_at (txt : str) (p : Z) : option ascii :=
  if p <? 0 then None else nth_error txt (Z.to_nat p).

(** Position [p] lies in the window of one of the chunks. *)
Definition covered (cs : list Chunk) (p : Z) : Prop :=
  exists c, In c cs /\ start_char c <= p < end_char c.

(** The text of a chunk is the stripped window between its positions,
    is not empty and is no longer than the window. *)
Definition chunk_of (txt : str) (c : Chunk) : Prop :=
  text c = strip (slice txt (start_char c) (end_char c)) /\
  text c <> [] /\
  len (text c) <= end_char c - start_char c.

(** A chunk that matches the text and whose window is at most
    [chunk_size] wide. *)
Definition sized (chunk_size : Z) (txt : str) (c : Chunk) : Prop :=
  chunk_of txt c /\ end_char c - start_char c <= chunk_size.

(** Every character before [bound] that is not a space lies in the
    window of a chunk. *)
Definition covers_until (txt : str) (cs : list Chunk) (bound : Z) : Prop :=
  forall p ch,
    p < bound -> char_at txt p = Some ch -> isspace ch = false ->
    covered cs p.

(** The number of chunks stored under a filename, 0 when there is
    none. *)
Definition stored_len (d : EphemeralStore.documents) (f : str) : Z :=
  match stored d f with Some v => len v | None => 0 end.

(** 1 when the filename is stored, else 0. *)
Definition stored_count (d : EphemeralStore.documents) (f : str) : Z :=
  match stored d f with Some _ => 1 | None => 0 end.

(** The character that [add_documents] puts between filename and chunk
    id. *)
Definition underscore : ascii := "_"%char.

(** A collection with the two records of "a.txt". *)
Definition two_records : VectorStore.collection unit :=
  after_add (fun _ => tt) VectorStore.Skip [] [one; two] (lit "a.txt").

(** * Properties *)

(** ** Lengths, slices and searches *)

Section PyFacts.

Lemma len_nonneg {A} (l : list A) : 0 <= len l.
Proof. unfold len; lia. Qed.

Lemma len_app {A} (a b : list A) : len (a ++ b) = len a + len b.
Proof. unfold len; rewrite length_app; lia. Qed.

Lemma len_cons {A} (x : A) (l : list A) : len (x :: l) = len l + 1.
Proof. unfold len; cbn [List.length]; lia. Qed.

Lemma len_zero_nil {A} (l : list A) : len l = 0 -> l = [].
Proof. destruct l; [reflexivity | rewrite len_cons; pose proof (len_nonneg l); lia]. Qed.

Lemma truthy_len {A} (l : list A) : truthy l = true <-> 0 < len l.
Proof.
  destruct l; cbn [truthy].
  - unfold len; cbn; split; [discriminate | lia].
  - rewrite len_cons; pose proof (len_nonneg l); split; [lia | reflexivity].
Qed.

Lemma clamp_range (L i : Z) : 0 <= L -> 0 <= clamp L i <= L.
Proof. unfold clamp; destruct (i <? 0) eqn:E; lia. Qed.

Lemma len_slice {A} (s : list A) (lo hi : Z) :
  len (slice s lo hi) = Z.max 0 (clamp (len s) hi - clamp (len s) lo).
Proof.
  pose proof (clamp_range (len s) lo (len_nonneg s)).
  pose proof (clamp_range (len s) hi (len_nonneg s)).
  unfold slice.
  generalize dependent (clamp (len s) lo).
  generalize dependent (clamp (len s) hi).
  intros b Hb a Ha.
  unfold len in *; rewrite length_firstn, length_skipn; lia.
Qed.

Lemma len_slice_le {A} (s : list A) (lo hi : Z) :
  len (slice s lo hi) <= len s.
Proof.
  rewrite len_slice.
  pose proof (clamp_range (len s) lo (len_nonneg s)).
  pose proof (clamp_range (len s) hi (len_nonneg s)).
  lia.
Qed.

(** A non-empty slice ends inside the string, counted from [lo]. *)
Lemma slice_reach {A} (s : list A) (lo hi : Z) :
  0 < len (slice s lo hi) -> lo + len (slice s lo hi) <= len s.
Proof.
  rewrite len_slice.
  pose proof (len_nonneg s).
  unfold clamp.
  destruct (lo <? 0) eqn:E1; destruct (hi <? 0) eqn:E2; lia.
Qed.

Lemma len_slice_inside {A} (s : list A) (lo hi : Z) :
  0 <= lo <= hi -> hi <= len s -> len (slice s lo hi) = hi - lo.
Proof.
  intros H1 H2; rewrite len_slice; unfold clamp.
  destruct (lo <? 0) eqn:E1; destruct (hi <? 0) eqn:E2; lia.
Qed.

Lemma slice_whole {A} (s : list A) (hi : Z) :
  len s <= hi -> slice s 0 hi = s.
Proof.
  intros H; unfold slice.
  pose proof (len_nonneg s).
  assert (Ea : clamp (len s) 0 = 0) by (unfold clamp; cbn; lia).
  assert (Eb : clamp (len s) hi = len s)
    by (unfold clamp; destruct (hi <? 0) eqn:E; lia).
  rewrite Ea, Eb, Z.sub_0_r; cbn [Z.to_nat skipn].
  unfold len; rewrite Nat2Z.id; apply firstn_all.
Qed.

Lemma startswith_len (p s : str) :
  startswith p s = true -> len p <= len s.
Proof.
  revert s; induction p as [|x p IH]; intros [|y s] H; cbn in H.
  - lia.
  - rewrite len_cons; unfold len; cbn; lia.
  - discriminate.
  - apply andb_prop in H as [_ H]; apply IH in H.
    rewrite !len_cons; lia.
Qed.

(** [rfind] answers [-1] or an index at which the pattern fits. *)
Lemma rfind_range (p s : str) :
  rfind p s = -1 \/ (0 <= rfind p s /\ rfind p s + len p <= len s).
Proof.
  induction s as [|c s IH]; cbn [rfind].
  - destruct (startswith p []) eqn:E; [right | now left].
    apply startswith_len in E; lia.
  - destruct (0 <=? rfind p s) eqn:E0.
    + right; rewrite len_cons; destruct IH; lia.
    + destruct (startswith p (c :: s)) eqn:E; [right | now left].
      apply startswith_len in E; lia.
Qed.

Lemma len_lstrip (s : str) : len (lstrip s) <= len s.
Proof.
  induction s as [|c s IH]; cbn [lstrip]; [lia|].
  destruct (isspace c); rewrite ?len_cons; lia.
Qed.

Lemma len_rev {A} (l : list A) : len (rev l) = len l.
Proof. unfold len; now rewrite length_rev. Qed.

Lemma len_strip (s : str) : len (strip s) <= len s.
Proof.
  unfold strip, rstrip; rewrite len_rev.
  etransitivity; [apply len_lstrip|]; rewrite len_rev; apply len_lstrip.
Qed.

End PyFacts.

(** ** Stripping *)

Section StripFacts.

Lemma lstrip_idem (s : str) : lstrip (lstrip s) = lstrip s.
Proof.
  induction s as [|c s IH]; cbn [lstrip]; [reflexivity|].
  destruct (isspace c) eqn:E; [exact IH|].
  cbn [lstrip]; now rewrite E.
Qed.

Lemma lstrip_snoc (l : str) (c : ascii) :
  isspace c = false -> lstrip (l ++ [c]) = lstrip l ++ [c].
Proof.
  intros Hc; induction l as [|x l IH]; cbn [lstrip app].
  - now rewrite Hc.
  - destruct (isspace x); [exact IH | reflexivity].
Qed.

Lemma rstrip_cons (c : ascii) (r : str) :
  isspace c = false -> rstrip (c :: r) = c :: rstrip r.
Proof.
  intros Hc; unfold rstrip; cbn [rev].
  rewrite lstrip_snoc by assumption.
  now rewrite rev_app_distr.
Qed.

Lemma rstrip_idem (s : str) : rstrip (rstrip s) = rstrip s.
Proof. unfold rstrip; now rewrite rev_involutive, lstrip_idem. Qed.

Lemma lstrip_head (s : str) :
  lstrip s = [] \/ exists c r, lstrip s = c :: r /\ isspace c = false.
Proof.
  induction s as [|c s IH]; cbn [lstrip]; [now left|].
  destruct (isspace c) eqn:E; [exact IH|].
  right; now exists c, s.
Qed.

Lemma lstrip_strip (s : str) : lstrip (strip s) = strip s.
Proof.
  unfold strip.
  destruct (lstrip_head s) as [E | (c & r & E & Hc)]; rewrite E.
  - reflexivity.
  - rewrite rstrip_cons by assumption; cbn [lstrip]; now rewrite Hc.
Qed.

(** Stripping twice is stripping once. *)
Lemma strip_idem (s : str) : strip (strip s) = strip s.
Proof.
  unfold strip at 1; rewrite lstrip_strip.
  unfold strip; apply rstrip_idem.
Qed.

End StripFacts.

(** ** The loop *)

Section WhileFacts.
Variable L : Z.
Variable body : walk -> walk.

(** A body that never moves [start] to [L] or beyond keeps the loop
    running whatever the fuel. *)
Lemma while_diverges :
  (forall s, w_start s < L -> w_start (body s) < L) ->
  forall fuel s, w_start s < L -> while_start L body fuel s = None.
Proof.
  intros Hb; induction fuel as [|fuel IH]; intros s Hs; cbn [while_start].
  - apply Z.ltb_lt in Hs; now rewrite Hs.
  - pose proof (Hb s Hs) as Hn.
    apply Z.ltb_lt in Hs; rewrite Hs.
    destruct (L <=? w_start (body s)) eqn:E; [apply Z.leb_le in E; lia|].
    now apply IH.
Qed.

Variable I : walk -> Prop.
Hypothesis preserved : forall s, I s -> w_start s < L -> I (body s).

(** What the loop returns is the chunk list of a state that satisfies
    the invariant and has left the text. *)
Lemma while_invariant :
  forall fuel s r, I s -> while_start L body fuel s = Some r ->
  exists s', I s' /\ L <= w_start s' /\ r = w_chunks s'.
Proof.
  induction fuel as [|fuel IH]; intros s r Hs; cbn [while_start];
    destruct (w_start s <? L) eqn:E.
  - discriminate.
  - intros [= <-]; exists s; apply Z.ltb_ge in E; auto.
  - apply Z.ltb_lt in E.
    destruct (L <=? w_start (body s)) eqn:E'.
    + intros [= <-]; exists (body s); apply Z.leb_le in E'; auto.
    + apply IH; auto.
  - intros [= <-]; exists s; apply Z.ltb_ge in E; auto.
Qed.

Hypothesis progress : forall s, I s -> w_start s < L ->
  w_start s < w_start (body s).

(** A body that moves [start] forward lets the loop exit within
    [L - start] passes. *)
Lemma while_terminates :
  forall fuel s, I s -> L - w_start s <= Z.of_nat fuel ->
  exists r, while_start L body fuel s = Some r.
Proof.
  induction fuel as [|fuel IH]; intros s Hs Hf; cbn [while_start];
    destruct (w_start s <? L) eqn:E; eauto.
  - apply Z.ltb_lt in E; lia.
  - apply Z.ltb_lt in E.
    destruct (L <=? w_start (body s)) eqn:E'; eauto.
    apply IH; [auto|].
    pose proof (progress s Hs E); lia.
Qed.

End WhileFacts.

(** ** Chunk sequences *)

Section ChunkFacts.

Lemma StronglySorted_snoc {A} (R : A -> A -> Prop) (l : list A) (y : A) :
  StronglySorted R l -> Forall (fun x => R x y) l ->
  StronglySorted R (l ++ [y]).
Proof.
  induction 1 as [|x l Hl IH Hx]; intros Hy; cbn [app].
  - constructor; constructor.
  - inversion Hy; subst; constructor; [auto|].
    apply Forall_app; split; [assumption | constructor; auto].
Qed.

Lemma dense_ids_snoc (cs : list Chunk) (c : Chunk) :
  dense_ids cs -> chunk_id c = len cs -> dense_ids (cs ++ [c]).
Proof.
  unfold dense_ids; intros H E.
  rewrite map_app, length_app; cbn [List.length map].
  rewrite Nat.add_1_r, seq_S, map_app, H, E; reflexivity.
Qed.

Lemma apart_increasing (L : Z) (cs : list Chunk) :
  Forall (in_bounds L) cs -> apart cs -> increasing_starts cs.
Proof.
  unfold apart, increasing_starts; intros Hb Ha.
  induction Ha as [|x l Hl IH Hx]; constructor.
  - inversion Hb; auto.
  - inversion Hb as [|? ? Hbx Hbl]; subst.
    eapply Forall_impl; [|exact Hx].
    cbn; intros b Hab; destruct Hbx as (_ & ? & _); lia.
Qed.

Lemma walk_ok_well_formed (L : Z) (s : walk) :
  walk_ok L s -> well_formed L (w_chunks s) /\ apart (w_chunks s).
Proof.
  intros (_ & _ & Hb & Ha & Hd & _); repeat split; auto.
  eapply apart_increasing; eauto.
Qed.

Lemma walk_ok_init (L : Z) : walk_ok L (mkWalk 0 0 []).
Proof.
  repeat split; cbn; try constructor; lia.
Qed.

(** Emitting (or dropping) the window [w_start s, e) and moving on to
    [nxt >= e] keeps the invariant. *)
Lemma emit_ok (L : Z) (s : walk) (chunk : str) (e nxt : Z) :
  walk_ok L s -> w_start s < e <= L -> e <= nxt ->
  walk_ok L (let '(cid, chunks) := emit s chunk (w_start s) e in
             mkWalk nxt cid chunks).
Proof.
  intros (H0 & Hid & Hb & Ha & Hd & He) Hw Hn.
  unfold emit; destruct (truthy chunk).
  - repeat split; cbn [w_start w_id w_chunks].
    + lia.
    + rewrite len_app, Hid; reflexivity.
    + apply Forall_app; split; [assumption|].
      constructor; [|constructor]; unfold in_bounds; cbn; lia.
    + apply StronglySorted_snoc; [assumption|].
      eapply Forall_impl; [|exact He]; cbn; intros; lia.
    + apply dense_ids_snoc; auto.
    + apply Forall_app; split.
      * eapply Forall_impl; [|exact He]; cbn; intros; lia.
      * constructor; [cbn; lia | constructor].
  - repeat split; cbn [w_start w_id w_chunks]; auto; try lia.
    eapply Forall_impl; [|exact He]; cbn; intros; lia.
Qed.

End ChunkFacts.

(** ** [DocumentProcessor.chunk_text] *)

Section DocumentProcessorFacts.
Import DocumentProcessor.

Lemma break_at_range (ds : list str) (chunk : str) (start e : Z) :
  break_at ds chunk start e = e \/
  start < break_at ds chunk start e <= start + len chunk.
Proof.
  induction ds as [|d ds IH]; cbn [break_at]; [now left|].
  destruct (negb (rfind d chunk =? -1) && (len chunk <? 2 * rfind d chunk))
    eqn:E; [|exact IH].
  right.
  apply andb_prop in E as [E1 E2].
  apply negb_true_iff, Z.eqb_neq in E1; apply Z.ltb_lt in E2.
  pose proof (len_nonneg chunk); pose proof (len_nonneg d).
  destruct (rfind_range d chunk) as [? | [? ?]]; lia.
Qed.

Variables (chunk_size chunk_overlap : Z).
Variable txt : str.

(** No window ends beyond the text. *)
Lemma dp_window_end_le (start : Z) :
  window_end chunk_size txt start <= len txt.
Proof.
  unfold window_end.
  set (e := if len txt <? start + chunk_size then len txt
            else start + chunk_size).
  assert (He : e <= len txt)
    by (subst e; destruct (len txt <? start + chunk_size) eqn:E; lia).
  destruct ((e <? len txt) && (50 <? len (slice txt start e))) eqn:E;
    [|exact He].
  apply andb_prop in E as [_ E2]; apply Z.ltb_lt in E2.
  pose proof (slice_reach txt start e ltac:(lia)).
  destruct (break_at_range delimiters (slice txt start e) start e); lia.
Qed.

(** With a positive size, a window that starts inside the text is not
    empty. *)
Lemma dp_window_end_gt (start : Z) :
  0 < chunk_size -> start < len txt ->
  start < window_end chunk_size txt start.
Proof.
  intros Hc Hs; unfold window_end.
  set (e := if len txt <? start + chunk_size then len txt
            else start + chunk_size).
  assert (He : start < e)
    by (subst e; destruct (len txt <? start + chunk_size) eqn:E; lia).
  destruct ((e <? len txt) && (50 <? len (slice txt start e))) eqn:E;
    [|exact He].
  destruct (break_at_range delimiters (slice txt start e) start e); lia.
Qed.

(** With a positive overlap the next start is always inside the text:
    the loop has no exit. *)
Lemma dp_body_stays_inside (s : walk) :
  0 < chunk_overlap ->
  w_start (body chunk_size chunk_overlap txt s) < len txt.
Proof.
  intros Ho; unfold body.
  destruct (emit s _ _ _) as [cid chunks]; cbn [w_start].
  pose proof (dp_window_end_le (w_start s)); lia.
Qed.

Lemma dp_loop_diverges (fuel : nat) (s : walk) :
  0 < chunk_overlap -> w_start s < len txt ->
  while_start (len txt) (body chunk_size chunk_overlap txt) fuel s = None.
Proof.
  intros Ho Hs; apply while_diverges; [|exact Hs].
  intros s' _; now apply dp_body_stays_inside.
Qed.

Lemma dp_body_ok (s : walk) :
  0 < chunk_size -> chunk_overlap <= 0 ->
  walk_ok (len txt) s -> w_start s < len txt ->
  walk_ok (len txt) (body chunk_size chunk_overlap txt s).
Proof.
  intros Hc Ho Hs Hlt; unfold body.
  apply emit_ok; [assumption | |lia].
  split; [now apply dp_window_end_gt | apply dp_window_end_le].
Qed.

Lemma dp_body_progress (s : walk) :
  0 < chunk_size -> chunk_overlap <= 0 -> w_start s < len txt ->
  w_start s < w_start (body chunk_size chunk_overlap txt s).
Proof.
  intros Hc Ho Hlt; unfold body.
  destruct (emit s _ _ _) as [cid chunks]; cbn [w_start].
  pose proof (dp_window_end_gt (w_start s) Hc Hlt); lia.
Qed.

End DocumentProcessorFacts.

Section DocumentProcessorText.
Import DocumentProcessor.

Lemma len_truncated (txt : str) :
  len (truncated txt) = Z.min (len txt) max_text_length.
Proof.
  unfold truncated, slice_to.
  destruct (max_text_length <? len txt) eqn:E.
  - apply Z.ltb_lt in E.
    rewrite len_slice_inside; unfold max_text_length in *; lia.
  - apply Z.ltb_ge in E; lia.
Qed.

Lemma strip_nil : strip [] = [].
Proof. reflexivity. Qed.

(** A text with a non-space character in it. *)
Lemma nonblank_len (txt : str) :
  truthy (strip txt) = true -> 0 < len (strip txt) /\ 0 < len txt.
Proof.
  intros H; apply truthy_len in H.
  pose proof (len_strip txt); lia.
Qed.

Lemma dp_chunk_text_nonblank (chunk_size chunk_overlap : Z) (fuel : nat)
    (txt : str) :
  truthy (strip txt) = true ->
  chunk_text chunk_size chunk_overlap fuel txt =
  while_start (len (truncated txt))
    (body chunk_size chunk_overlap (truncated txt)) fuel (mkWalk 0 0 []).
Proof.
  intros H; destruct (nonblank_len txt H) as [H1 H2]; unfold chunk_text.
  apply truthy_len in H2; rewrite H2; cbn [negb orb].
  destruct (len (strip txt) =? 0) eqn:E; [apply Z.eqb_eq in E; lia|].
  reflexivity.
Qed.

Lemma dp_chunk_text_blank (chunk_size chunk_overlap : Z) (fuel : nat)
    (txt : str) :
  truthy (strip txt) = false ->
  chunk_text chunk_size chunk_overlap fuel txt = Some [].
Proof.
  intros H; unfold chunk_text.
  destruct (strip txt) eqn:E; [|discriminate].
  cbn; now rewrite orb_true_r.
Qed.

Lemma truncated_nonempty (txt : str) :
  truthy (strip txt) = true -> 0 < len (truncated txt).
Proof.
  intros H; destruct (nonblank_len txt H).
  rewrite len_truncated; unfold max_text_length; lia.
Qed.

(** With a positive overlap, [chunk_text] does not return on any text
    that has a non-space character. *)
Lemma dp_chunk_text_diverges (chunk_size chunk_overlap : Z) (fuel : nat)
    (txt : str) :
  0 < chunk_overlap -> truthy (strip txt) = true ->
  chunk_text chunk_size chunk_overlap fuel txt = None.
Proof.
  intros Ho H; rewrite dp_chunk_text_nonblank by assumption.
  apply dp_loop_diverges; [assumption|].
  cbn [w_start]; now apply truncated_nonempty.
Qed.

(** Whatever [chunk_text] returns is well formed. *)
Lemma dp_chunk_text_returns_well_formed (chunk_size chunk_overlap : Z)
    (fuel : nat) (txt : str) (r : list Chunk) :
  0 < chunk_size ->
  chunk_text chunk_size chunk_overlap fuel txt = Some r ->
  well_formed (len (truncated txt)) r /\ apart r.
Proof.
  intros Hc Hr.
  destruct (truthy (strip txt)) eqn:Hn.
  - destruct (Z.ltb_spec 0 chunk_overlap) as [Ho | Ho].
    + rewrite dp_chunk_text_diverges in Hr by assumption; discriminate.
    + rewrite dp_chunk_text_nonblank in Hr by assumption.
      apply while_invariant
        with (I := walk_ok (len (truncated txt))) in Hr
        as (s' & Hs' & _ & ->).
      * now apply walk_ok_well_formed.
      * intros; now apply dp_body_ok.
      * apply walk_ok_init.
  - rewrite dp_chunk_text_blank in Hr by assumption.
    injection Hr as <-.
    repeat split; constructor.
Qed.

(** Without overlap [chunk_text] returns, within one pass per
    character. *)
Lemma dp_chunk_text_terminates (chunk_size chunk_overlap : Z) (txt : str) :
  0 < chunk_size -> chunk_overlap <= 0 ->
  exists r,
    chunk_text chunk_size chunk_overlap (List.length (truncated txt)) txt
    = Some r.
Proof.
  intros Hc Ho.
  destruct (truthy (strip txt)) eqn:Hn.
  - rewrite dp_chunk_text_nonblank by assumption.
    apply while_terminates with (I := walk_ok (len (truncated txt))).
    + intros; now apply dp_body_ok.
    + intros; now apply dp_body_progress.
    + apply walk_ok_init.
    + cbn [w_start]; unfold len; lia.
  - rewrite dp_chunk_text_blank by assumption; eauto.
Qed.

(** X6: in [DocumentProcessor.chunk_text] a text that has a character
    other than a space, fits in one window and is below the ceiling,
    chunked without overlap, gives the one chunk that spans it: its
    text is stripped, its positions are those of the unstripped text. *)
Lemma dp_chunk_text_one_window (chunk_size chunk_overlap : Z) (fuel : nat)
    (txt : str) :
  chunk_overlap <= 0 -> truthy (strip txt) = true ->
  len txt <= chunk_size -> len txt <= max_text_length ->
  chunk_text chunk_size chunk_overlap (S fuel) txt
  = Some [mkChunk (strip txt) 0 0 (len txt)].
Proof.
  intros Ho Hn Hc Hm.
  rewrite dp_chunk_text_nonblank by assumption.
  destruct (nonblank_len txt Hn) as [_ Hl].
  assert (Et : truncated txt = txt).
  { unfold truncated.
    destruct (max_text_length <? len txt) eqn:E;
      [apply Z.ltb_lt in E; lia | reflexivity]. }
  rewrite Et; cbn [while_start w_start].
  destruct (0 <? len txt) eqn:E0; [|apply Z.ltb_ge in E0; lia].
  assert (Ew : window_end chunk_size txt 0 = len txt).
  { unfold window_end; rewrite Z.add_0_l.
    destruct (len txt <? chunk_size) eqn:E1.
    - rewrite Z.ltb_irrefl; reflexivity.
    - apply Z.ltb_ge in E1.
      replace chunk_size with (len txt) by lia.
      rewrite Z.ltb_irrefl; reflexivity. }
  unfold body; cbn [w_start]; rewrite Ew.
  rewrite slice_whole by lia.
  unfold emit; rewrite Hn; cbn [w_start w_id w_chunks app].
  destruct (len txt <=? len txt - chunk_overlap) eqn:E2;
    [reflexivity | apply Z.leb_gt in E2; lia].
Qed.

End DocumentProcessorText.

(** ** [MainEphemeral.chunk_text] *)

Section MainEphemeralFacts.
Import MainEphemeral.

Variables (chunk_size overlap : Z).
Variable txt : str.

Lemma me_window_end_le (start : Z) :
  window_end chunk_size txt start <= len txt.
Proof.
  unfold window_end; destruct (len txt <? start + chunk_size) eqn:E; lia.
Qed.

Lemma me_window_end_gt (start : Z) :
  0 < chunk_size -> start < len txt ->
  start < window_end chunk_size txt start.
Proof.
  intros; unfold window_end.
  destruct (len txt <? start + chunk_size) eqn:E; lia.
Qed.

Lemma me_body_ok (s : walk) :
  0 < chunk_size -> walk_ok (len txt) s -> w_start s < len txt ->
  walk_ok (len txt) (body chunk_size overlap txt s).
Proof.
  intros Hc Hs Hlt; unfold body.
  apply emit_ok; [assumption | |lia].
  split; [now apply me_window_end_gt | apply me_window_end_le].
Qed.

Lemma me_body_progress (s : walk) :
  0 < chunk_size -> w_start s < len txt ->
  w_start s < w_start (body chunk_size overlap txt s).
Proof.
  intros Hc Hlt; unfold body.
  destruct (emit s _ _ _) as [cid chunks]; cbn [w_start].
  pose proof (me_window_end_gt (w_start s) Hc Hlt); lia.
Qed.

(** With a size that is not positive and an overlap that is not
    negative, the next start is the window end, which is not after the
    start. *)
Lemma me_body_stays_inside (s : walk) :
  chunk_size <= 0 -> 0 <= overlap -> w_start s < len txt ->
  w_start (body chunk_size overlap txt s) < len txt.
Proof.
  intros Hc Ho Hlt; unfold body.
  destruct (emit s _ _ _) as [cid chunks]; cbn [w_start].
  unfold window_end; destruct (len txt <? w_start s + chunk_size) eqn:E;
    [apply Z.ltb_lt in E|]; lia.
Qed.

(** [max(end - overlap, end)] is [end]: a non-negative overlap is not
    read. *)
Lemma me_body_overlap (s : walk) :
  0 <= overlap ->
  body chunk_size overlap txt s = body chunk_size 0 txt s.
Proof.
  intros Ho; unfold body.
  destruct (emit s _ _ _) as [cid chunks].
  f_equal; lia.
Qed.

End MainEphemeralFacts.

Section MainEphemeralText.
Import MainEphemeral.

Lemma while_start_ext (L : Z) (f g : walk -> walk) :
  (forall s, f s = g s) ->
  forall fuel s, while_start L f fuel s = while_start L g fuel s.
Proof.
  intros E; induction fuel as [|fuel IH]; intros s; cbn [while_start].
  - reflexivity.
  - rewrite E, IH; reflexivity.
Qed.

Lemma me_chunk_text_nonblank (chunk_size overlap : Z) (fuel : nat)
    (txt : str) :
  truthy (strip txt) = true ->
  chunk_text chunk_size overlap fuel txt =
  while_start (len (strip txt)) (body chunk_size overlap (strip txt))
    fuel (mkWalk 0 0 []).
Proof. intros H; unfold chunk_text; now rewrite H. Qed.

Lemma me_chunk_text_blank (chunk_size overlap : Z) (fuel : nat)
    (txt : str) :
  truthy (strip txt) = false ->
  chunk_text chunk_size overlap fuel txt = Some [].
Proof. intros H; unfold chunk_text; now rewrite H. Qed.

(** The overlap argument does not change the result. *)
Lemma me_chunk_text_overlap (chunk_size overlap : Z) (fuel : nat)
    (txt : str) :
  0 <= overlap ->
  chunk_text chunk_size overlap fuel txt = chunk_text chunk_size 0 fuel txt.
Proof.
  intros Ho; unfold chunk_text.
  destruct (negb (truthy (strip txt))); [reflexivity|].
  apply while_start_ext; intros s; now apply me_body_overlap.
Qed.

Lemma me_chunk_text_returns_well_formed (chunk_size overlap : Z)
    (fuel : nat) (txt : str) (r : list Chunk) :
  0 < chunk_size ->
  chunk_text chunk_size overlap fuel txt = Some r ->
  well_formed (len (strip txt)) r /\ apart r.
Proof.
  intros Hc Hr.
  destruct (truthy (strip txt)) eqn:Hn.
  - rewrite me_chunk_text_nonblank in Hr by assumption.
    apply while_invariant with (I := walk_ok (len (strip txt))) in Hr
      as (s' & Hs' & _ & ->).
    + now apply walk_ok_well_formed.
    + intros; now apply me_body_ok.
    + apply walk_ok_init.
  - rewrite me_chunk_text_blank in Hr by assumption.
    injection Hr as <-.
    repeat split; constructor.
Qed.

(** The chunker returns, within one pass per character. *)
Lemma me_chunk_text_terminates (chunk_size overlap : Z) (txt : str) :
  0 < chunk_size ->
  exists r,
    chunk_text chunk_size overlap (List.length (strip txt)) txt = Some r.
Proof.
  intros Hc.
  destruct (truthy (strip txt)) eqn:Hn.
  - rewrite me_chunk_text_nonblank by assumption.
    apply while_terminates with (I := walk_ok (len (strip txt))).
    + intros; now apply me_body_ok.
    + intros; now apply me_body_progress.
    + apply walk_ok_init.
    + cbn [w_start]; unfold len; lia.
  - rewrite me_chunk_text_blank by assumption; eauto.
Qed.

(** With a size that is not positive the chunker returns only on blank
    text. *)
Lemma me_chunk_text_bad_size (chunk_size overlap : Z) (fuel : nat)
    (txt : str) :
  chunk_size <= 0 -> 0 <= overlap -> truthy (strip txt) = true ->
  chunk_text chunk_size overlap fuel txt = None.
Proof.
  intros Hc Ho Hn; rewrite me_chunk_text_nonblank by assumption.
  apply while_diverges.
  - intros; now apply me_body_stays_inside.
  - cbn [w_start]; now apply truthy_len.
Qed.

(** X5: in the ephemeral chunker a text that has a character other
    than a space and fits in one window gives, after at least one pass
    and whatever the overlap, the one chunk that spans the stripped
    text. *)
Lemma me_chunk_text_one_window (chunk_size overlap : Z) (fuel : nat)
    (txt : str) :
  truthy (strip txt) = true -> len txt <= chunk_size ->
  chunk_text chunk_size overlap (S fuel) txt
  = Some [mkChunk (strip txt) 0 0 (len (strip txt))].
Proof.
  intros Hn Hc.
  rewrite me_chunk_text_nonblank by assumption.
  pose proof (len_strip txt) as Hs.
  pose proof (proj1 (truthy_len _) Hn) as Hl.
  cbn [while_start w_start].
  destruct (0 <? len (strip txt)) eqn:E0; [|apply Z.ltb_ge in E0; lia].
  assert (Ew : window_end chunk_size (strip txt) 0 = len (strip txt)).
  { unfold window_end; rewrite Z.add_0_l.
    destruct (len (strip txt) <? chunk_size) eqn:E1;
      [reflexivity | apply Z.ltb_ge in E1; lia]. }
  unfold body; cbn [w_start]; rewrite Ew.
  rewrite slice_whole by lia.
  rewrite strip_idem.
  unfold emit; rewrite Hn; cbn [w_start w_id w_chunks app].
  destruct (len (strip txt)
            <=? Z.max (len (strip txt) - overlap) (len (strip txt))) eqn:E2;
    [reflexivity | apply Z.leb_gt in E2; lia].
Qed.

End MainEphemeralText.

(** ** Strings as keys and words *)

Section WordFacts.

Lemma eqb_str_eq (a b : str) : eqb_str a b = true <-> a = b.
Proof.
  revert b; induction a as [|x a IH]; intros [|y b]; cbn [eqb_str];
    try (split; [discriminate | discriminate]); [tauto|].
  unfold eqb_char; rewrite andb_true_iff, Ascii.eqb_eq, IH.
  split; [intros [-> ->]; reflexivity | intros [= -> ->]; auto].
Qed.

Lemma eqb_str_refl (a : str) : eqb_str a a = true.
Proof. now apply eqb_str_eq. Qed.

Lemma eqb_str_neq (a b : str) : eqb_str a b = false <-> a <> b.
Proof.
  rewrite <- eqb_str_eq; destruct (eqb_str a b); split; congruence.
Qed.

Lemma startswith_spec (p s : str) :
  startswith p s = true <-> exists b, s = p ++ b.
Proof.
  revert s; induction p as [|x p IH]; intros s; cbn [startswith].
  - split; [intros _; now exists s | reflexivity].
  - destruct s as [|y s].
    + split; [discriminate | intros [b Hb]; discriminate].
    + unfold eqb_char; rewrite andb_true_iff, Ascii.eqb_eq, IH.
      split.
      * intros [-> [b ->]]; now exists b.
      * intros [b [= -> ->]]; split; [reflexivity | now exists b].
Qed.

(** [p in s] is the substring relation. *)
Lemma contains_spec (p s : str) :
  contains p s = true <-> substring p s.
Proof.
  unfold substring; induction s as [|c s IH]; cbn [contains].
  - rewrite orb_false_r, startswith_spec; split.
    + intros [b Hb]; now exists [], b.
    + intros (a & b & H).
      destruct a; [now exists b|discriminate].
  - rewrite orb_true_iff, startswith_spec, IH; split.
    + intros [[b Hb] | (a & b & ->)].
      * now exists [], b.
      * now exists (c :: a), b.
    + intros (a & b & H); destruct a as [|x a].
      * left; now exists b.
      * right; injection H as -> ->; now exists a, b.
Qed.

Lemma mem_In (w : str) (l : list str) : mem w l = true <-> In w l.
Proof.
  unfold mem; rewrite existsb_exists; split.
  - intros (x & Hx & E); apply eqb_str_eq in E; now subst.
  - intros H; exists w; split; [assumption | apply eqb_str_refl].
Qed.

Lemma set_of_In (w : str) (l : list str) : In w (set_of l) <-> In w l.
Proof.
  induction l as [|x l IH]; cbn [set_of]; [tauto|].
  destruct (mem x l) eqn:E; cbn [In]; rewrite IH.
  - apply mem_In in E; split; [auto | intros [<- | ?]; auto].
  - tauto.
Qed.

Lemma set_of_NoDup (l : list str) : NoDup (set_of l).
Proof.
  induction l as [|x l IH]; cbn [set_of]; [constructor|].
  destruct (mem x l) eqn:E; [assumption|].
  constructor; [|assumption].
  rewrite set_of_In, <- mem_In; congruence.
Qed.

(** The size of the intersection counts the shared words once each. *)
Lemma inter_size_shared (q t : str) :
  exists ws, shared_words q t ws /\
    inter_size (set_of (split q)) (set_of (split t)) = len ws.
Proof.
  exists (filter (fun w => mem w (set_of (split t))) (set_of (split q))).
  split; [split|reflexivity].
  - apply NoDup_filter, set_of_NoDup.
  - intros w; rewrite filter_In, mem_In, !set_of_In; tauto.
Qed.

Lemma shared_words_len (q t : str) (ws ws' : list str) :
  shared_words q t ws -> shared_words q t ws' -> len ws = len ws'.
Proof.
  intros [N H] [N' H']; unfold len; f_equal.
  apply Permutation_length, NoDup_Permutation; auto.
  intros w; rewrite H, H'; tauto.
Qed.

(** The specification's score is a function of query and text. *)
Lemma spec_score_unique (query text_ : str) (n m : Z) :
  spec_score query text_ n -> spec_score query text_ m -> n = m.
Proof.
  intros (b & ws & Hb & Hw & ->) (b' & ws' & Hb' & Hw' & ->).
  rewrite (shared_words_len _ _ _ _ Hw Hw').
  destruct Hb as [[? ->] | [? ->]], Hb' as [[? ->] | [? ->]];
    tauto || reflexivity.
Qed.

End WordFacts.

(** ** [EphemeralStore] *)

Section EphemeralStoreFacts.
Import EphemeralStore.

Lemma setitem_twice (d : documents) (k : str) (v1 v2 : list Chunk) :
  setitem (setitem d k v1) k v2 = setitem d k v2.
Proof.
  induction d as [|[k' v'] d IH]; cbn [setitem].
  - now rewrite eqb_str_refl.
  - destruct (eqb_str k' k) eqn:E; cbn [setitem].
    + now rewrite eqb_str_refl.
    + now rewrite E, IH.
Qed.

(** X25: in the in-memory store, adding twice under one filename is
    adding the second list: the first is replaced. *)
Lemma ephemeral_add_twice (d : documents) (c1 c2 : list Chunk)
    (f : str) :
  add_documents (add_documents d c1 f) c2 f = add_documents d c2 f.
Proof. apply setitem_twice. Qed.

(** The code's score meets the specification's. *)
Lemma score_spec (query text_ : str) :
  spec_score query text_
    (score (lower query) (set_of (split (lower query))) text_).
Proof.
  unfold score, spec_score.
  destruct (inter_size_shared (lower query) (lower text_))
    as (ws & Hw & ->).
  cbv zeta; destruct (contains (lower query) (lower text_)) eqn:E.
  - exists 1, ws; split; [|split; [exact Hw | lia]].
    left; split; [now apply contains_spec | reflexivity].
  - exists 0, ws; split; [|split; [exact Hw | lia]].
    right; split; [|reflexivity].
    rewrite <- contains_spec; congruence.
Qed.

(** [scored] keeps, in order, the hits with a positive score. *)
Lemma scored_filter (d : documents) (query : str) :
  scored d (lower query) (set_of (split (lower query)))
  = filter (fun h => 0 <? hit_score h) (all_hits d query).
Proof.
  unfold scored, all_hits.
  induction d as [|[fname chunks] d IH]; [reflexivity|].
  cbn [flat_map]; rewrite filter_app, IH; f_equal.
  induction chunks as [|c chunks IHc]; [reflexivity|].
  cbn [flat_map map filter hit_score]; rewrite IHc.
  destruct (0 <? score _ _ (text c)); reflexivity.
Qed.

Lemma insert_desc_perm (x : Hit) (l : list Hit) :
  Permutation (x :: l) (insert_desc x l).
Proof.
  induction l as [|y l IH]; cbn [insert_desc]; [reflexivity|].
  destruct (hit_score y <=? hit_score x); [reflexivity|].
  rewrite perm_swap; now constructor.
Qed.

Lemma sort_desc_perm (l : list Hit) : Permutation l (sort_desc l).
Proof.
  induction l as [|x l IH]; cbn [sort_desc]; [constructor|].
  rewrite <- insert_desc_perm; now constructor.
Qed.

Lemma insert_desc_sorted (x : Hit) (l : list Hit) :
  StronglySorted desc l -> StronglySorted desc (insert_desc x l).
Proof.
  induction 1 as [|y l Hl IH Hy]; cbn [insert_desc].
  - repeat constructor.
  - destruct (hit_score y <=? hit_score x) eqn:E.
    + apply Z.leb_le in E; constructor; [now constructor|].
      constructor; [exact E|].
      eapply Forall_impl; [|exact Hy]; unfold desc; intros; lia.
    + apply Z.leb_gt in E; constructor; [assumption|].
      rewrite <- insert_desc_perm; constructor; [unfold desc; lia|].
      assumption.
Qed.

Lemma sort_desc_sorted (l : list Hit) : StronglySorted desc (sort_desc l).
Proof.
  induction l; cbn [sort_desc]; [constructor | now apply insert_desc_sorted].
Qed.

(** Stability: the hits of any one score keep their order. *)
Lemma insert_desc_stable (n : Z) (x : Hit) (l : list Hit) :
  StronglySorted desc l ->
  filter (fun h => hit_score h =? n) (insert_desc x l)
  = filter (fun h => hit_score h =? n) (x :: l).
Proof.
  induction 1 as [|y l Hl IH Hy]; cbn [insert_desc]; [reflexivity|].
  destruct (hit_score y <=? hit_score x) eqn:E; [reflexivity|].
  apply Z.leb_gt in E.
  cbn [filter] in *; rewrite IH.
  destruct (hit_score x =? n) eqn:Ex, (hit_score y =? n) eqn:Ey;
    try reflexivity.
  apply Z.eqb_eq in Ex, Ey; lia.
Qed.

Lemma sort_desc_stable (n : Z) (l : list Hit) :
  filter (fun h => hit_score h =? n) (sort_desc l)
  = filter (fun h => hit_score h =? n) l.
Proof.
  induction l as [|x l IH]; cbn [sort_desc]; [reflexivity|].
  rewrite insert_desc_stable by apply sort_desc_sorted.
  cbn [filter]; now rewrite IH.
Qed.

End EphemeralStoreFacts.

Section EphemeralSearchFacts.
Import EphemeralStore.

Lemma slice_to_firstn {A} (l : list A) (k : Z) :
  0 <= k -> slice_to l k = firstn (Z.to_nat k) l.
Proof.
  intros Hk; unfold slice_to, slice.
  pose proof (len_nonneg l) as Hl.
  assert (Ea : clamp (len l) 0 = 0) by (unfold clamp; cbn; lia).
  rewrite Ea, Z.sub_0_r; cbn [Z.to_nat skipn].
  unfold clamp; destruct (k <? 0) eqn:E; [apply Z.ltb_lt in E; lia|].
  destruct (Z.le_ge_cases k (len l)) as [H | H].
  - now rewrite Z.min_l.
  - rewrite Z.min_r by assumption.
    unfold len in *; rewrite Nat2Z.id, firstn_all.
    symmetry; apply firstn_all2; lia.
Qed.

(** [search] is the first [top_k] of the ranked list. *)
Lemma search_firstn (d : documents) (query : str) (top_k : Z) :
  0 <= top_k ->
  search d query top_k
  = firstn (Z.to_nat top_k)
      (sort_desc (scored d (lower query) (set_of (split (lower query))))).
Proof.
  intros Hk; unfold search.
  destruct d as [|kv d]; cbn [truthy negb].
  - now rewrite firstn_nil.
  - now apply slice_to_firstn.
Qed.

Lemma all_hits_In (d : documents) (query : str) (h : Hit) :
  In h (all_hits d query) <->
  exists fname chunks chunk,
    In (fname, chunks) d /\ In chunk chunks /\
    h = mkHit (text chunk) fname (chunk_id chunk)
          (score (lower query) (set_of (split (lower query)))
             (text chunk)).
Proof.
  unfold all_hits; rewrite in_flat_map; split.
  - intros ([fname chunks] & Hd & Hh).
    apply in_map_iff in Hh as (chunk & <- & Hc).
    now exists fname, chunks, chunk.
  - intros (fname & chunks & chunk & Hd & Hc & ->).
    exists (fname, chunks); split; [assumption|].
    apply in_map_iff; now exists chunk.
Qed.

End EphemeralSearchFacts.

(** ** Sorting names *)

Section NameFacts.

Lemma ord_inj (x y : ascii) : ord x = ord y -> x = y.
Proof.
  unfold ord; intros H; apply N2Z.inj in H.
  rewrite <- (ascii_N_embedding x), <- (ascii_N_embedding y).
  now rewrite H.
Qed.

Lemma ltb_str_irrefl (a : str) : ltb_str a a = false.
Proof.
  induction a as [|x a IH]; cbn [ltb_str]; [reflexivity|].
  now rewrite Z.ltb_irrefl.
Qed.

Lemma ltb_str_trans (a b c : str) :
  ltb_str a b = true -> ltb_str b c = true -> ltb_str a c = true.
Proof.
  revert b c; induction a as [|x a IH]; intros [|y b] [|z c];
    cbn [ltb_str]; try congruence.
  destruct (ord x <? ord y) eqn:Exy, (ord y <? ord x) eqn:Eyx,
           (ord y <? ord z) eqn:Eyz, (ord z <? ord y) eqn:Ezy,
           (ord x <? ord z) eqn:Exz, (ord z <? ord x) eqn:Ezx;
    try congruence;
    repeat match goal with
           | H : (_ <? _) = true |- _ => apply Z.ltb_lt in H
           | H : (_ <? _) = false |- _ => apply Z.ltb_ge in H
           end; try lia.
  apply IH.
Qed.

Lemma ltb_str_total (a b : str) :
  ltb_str a b = false -> a <> b -> ltb_str b a = true.
Proof.
  revert b; induction a as [|x a IH]; intros [|y b];
    cbn [ltb_str]; try congruence.
  destruct (ord x <? ord y) eqn:Exy, (ord y <? ord x) eqn:Eyx;
    try congruence.
  intros H N; apply IH; [assumption|].
  apply Z.ltb_ge in Exy, Eyx.
  assert (x = y) by (apply ord_inj; lia).
  congruence.
Qed.

Lemma insert_str_In (x y : str) (l : list str) :
  In y (insert_str x l) <-> y = x \/ In y l.
Proof.
  induction l as [|z l IH]; cbn [insert_str].
  - cbn; intuition.
  - destruct (ltb_str x z); cbn [In]; [intuition|].
    rewrite IH; intuition.
Qed.

Lemma insert_str_sorted (x : str) (l : list str) :
  sorted_names l -> ~ In x l -> sorted_names (insert_str x l).
Proof.
  unfold sorted_names.
  induction 1 as [|z l Hl IH Hz]; intros Hx; cbn [insert_str].
  - repeat constructor.
  - destruct (ltb_str x z) eqn:E.
    + constructor; [now constructor|].
      constructor; [exact E|].
      eapply Forall_impl; [|exact Hz].
      intros b Hb; eapply ltb_str_trans; eauto.
    + assert (Hzx : lt_str z x).
      { apply ltb_str_total; [assumption|].
        intros ->; apply Hx; now left. }
      constructor; [apply IH; intros ?; apply Hx; now right|].
      apply Forall_forall; intros b Hb.
      apply insert_str_In in Hb as [-> | Hb]; [assumption|].
      rewrite Forall_forall in Hz; auto.
Qed.

Lemma sorted_In (y : str) (l : list str) : In y (sorted l) <-> In y l.
Proof.
  induction l as [|x l IH]; cbn [sorted]; [tauto|].
  rewrite insert_str_In, IH; cbn; intuition.
Qed.

Lemma sorted_sorted (l : list str) : NoDup l -> sorted_names (sorted l).
Proof.
  induction 1 as [|x l Hx Hl IH]; cbn [sorted]; [constructor|].
  apply insert_str_sorted; [assumption|].
  now rewrite sorted_In.
Qed.

Lemma sorted_names_NoDup (l : list str) : sorted_names l -> NoDup l.
Proof.
  induction 1 as [|x l Hl IH Hx]; constructor; [|assumption].
  intros Hin; rewrite Forall_forall in Hx.
  specialize (Hx x Hin); unfold lt_str in Hx.
  rewrite ltb_str_irrefl in Hx; discriminate.
Qed.

End NameFacts.

(** ** [VectorStore] *)

Section VectorStoreFacts.
Import VectorStore.
Variable embedding : Type.

Lemma vector_list_documents_mem (c : collection embedding) (f : str) :
  In f (list_documents c) ->
  exists e, In e c /\ md_filename (e_metadata e) = f.
Proof.
  unfold list_documents.
  destruct (negb (truthy (map e_metadata c))); [intros []|].
  rewrite sorted_In, set_of_In, map_map, in_map_iff.
  intros (x & H1 & H2); exists x; auto.
Qed.

(** X23: [VectorStore.list_documents] lists each indexed filename
    once, in lexicographic order, and lists no other name. *)
Lemma vector_list_documents_sorted (c : collection embedding) :
  sorted_names (list_documents c) /\
  NoDup (list_documents c) /\
  forall f, In f (list_documents c) <->
            exists e, In e c /\ md_filename (e_metadata e) = f.
Proof.
  assert (S : sorted_names (list_documents c)).
  { unfold list_documents.
    destruct (negb (truthy (map e_metadata c))); [constructor|].
    apply sorted_sorted, set_of_NoDup. }
  split; [exact S|]; split; [now apply sorted_names_NoDup|].
  intros f; unfold list_documents.
  destruct (negb (truthy (map e_metadata c))) eqn:E.
  - destruct c; [|discriminate].
    split; [intros [] | intros (e & [] & _)].
  - rewrite sorted_In, set_of_In, map_map, in_map_iff.
    split; intros (x & H1 & H2); exists x; auto.
Qed.

End VectorStoreFacts.

(** ** Context assembly *)

Section ContextFacts.

Lemma join_snoc (sep x y : str) (l : list str) :
  join sep ((x :: l) ++ [y]) = join sep (x :: l) ++ sep ++ y.
Proof.
  revert x; induction l as [|z l IH]; intros x.
  - reflexivity.
  - change (join sep ((x :: z :: l) ++ [y]))
      with (x ++ sep ++ join sep ((z :: l) ++ [y])).
    rewrite IH.
    change (join sep (x :: z :: l)) with (x ++ sep ++ join sep (z :: l)).
    now rewrite <- !app_assoc.
Qed.

Variable distance : Type.

Lemma context_loop_acc (i : Z) (parts : list str) (docs : list (RAGPipeline.Doc distance)) :
  RAGPipeline.context_loop distance i parts docs
  = parts ++ RAGPipeline.context_loop distance i [] docs.
Proof.
  revert i parts; induction docs as [|d docs IH]; intros i parts;
    cbn [RAGPipeline.context_loop].
  - now rewrite app_nil_r.
  - rewrite IH, (IH _ ([] ++ _)); cbn [app]; now rewrite <- app_assoc.
Qed.

Lemma context_loop_snoc (i : Z) (docs : list (RAGPipeline.Doc distance)) (d : RAGPipeline.Doc distance) :
  RAGPipeline.context_loop distance i [] (docs ++ [d])
  = RAGPipeline.context_loop distance i [] docs
    ++ [RAGPipeline.block distance (i + len docs) d].
Proof.
  revert i; induction docs as [|d0 docs IH]; intros i;
    cbn [RAGPipeline.context_loop app].
  - unfold len; cbn; now rewrite Z.add_0_r.
  - rewrite context_loop_acc, IH.
    rewrite (context_loop_acc (i + 1) [_] docs).
    rewrite len_cons, <- app_assoc.
    replace (i + 1 + len docs) with (i + (len docs + 1)) by lia.
    reflexivity.
Qed.

Lemma context_loop_cons (i : Z) (d : RAGPipeline.Doc distance) (docs : list (RAGPipeline.Doc distance)) :
  RAGPipeline.context_loop distance i [] (d :: docs)
  = RAGPipeline.block distance i d
    :: RAGPipeline.context_loop distance (i + 1) [] docs.
Proof.
  cbn [RAGPipeline.context_loop]; now rewrite context_loop_acc.
Qed.

Lemma blocks_snoc (i : Z) (hits : list EphemeralStore.Hit)
    (h : EphemeralStore.Hit) :
  MainEphemeral.blocks i (hits ++ [h])
  = MainEphemeral.blocks i hits ++ [MainEphemeral.block (i + len hits) h].
Proof.
  revert i; induction hits as [|h0 hits IH]; intros i;
    cbn [MainEphemeral.blocks app].
  - unfold len; cbn; now rewrite Z.add_0_r.
  - rewrite IH, len_cons.
    replace (i + 1 + len hits) with (i + (len hits + 1)) by lia.
    reflexivity.
Qed.

End ContextFacts.

(** * The chunker *)

Section ChunkerClaims.

(** C1, for [DocumentProcessor.chunk_text]: with a chunk size and an
    overlap that satisfy the contract and an overlap that is not zero,
    [chunk_text] does not return on any text that has a non-space
    character, whatever the fuel; and a window that starts [overlap]
    characters before the end of the text restarts at its own start.
    The chunker of [main_ephemeral.py] does return
    ([me_chunk_text_terminates]). *)
Theorem chunk_text_overlap_never_returns
    (chunk_size chunk_overlap : Z) (txt : str) :
  0 < chunk_size -> 0 < chunk_overlap < chunk_size ->
  truthy (strip txt) = true ->
  (forall fuel,
     DocumentProcessor.chunk_text chunk_size chunk_overlap fuel txt = None)
  /\
  (forall s,
     w_start s = len (DocumentProcessor.truncated txt) - chunk_overlap ->
     w_start (DocumentProcessor.body chunk_size chunk_overlap
                (DocumentProcessor.truncated txt) s) = w_start s).
Proof.
  intros Hc Ho Hn; split.
  - intros fuel; apply dp_chunk_text_diverges; [lia | assumption].
  - intros s Hs; unfold DocumentProcessor.body.
    destruct (emit s _ _ _) as [cid chunks]; cbn [w_start].
    rewrite Hs; f_equal.
    unfold DocumentProcessor.window_end.
    set (L := len (DocumentProcessor.truncated txt)).
    destruct (L <? L - chunk_overlap + chunk_size) eqn:E;
      [|apply Z.ltb_ge in E; lia].
    now rewrite Z.ltb_irrefl.
Qed.

Lemma chunk_text_overlap_never_returns_witness :
  DocumentProcessor.chunk_text 500 50 7 hello = None.
Proof.
  exact (proj1 (chunk_text_overlap_never_returns 500 50 hello
                  ltac:(lia) ltac:(lia) eq_refl) 7%nat).
Defined.

(** C4: with a positive chunk size, every chunk sequence that either
    chunker returns has [0 <= start_char < end_char <= L] for each
    chunk, [L] being the length of the text walked (the input cut at
    the ceiling, or the stripped input), strictly increasing
    [start_char] and ids 0, 1, 2, ...  The ephemeral chunker returns
    on every text; [DocumentProcessor.chunk_text] returns when the
    overlap is not positive. *)
Theorem chunk_sequences_well_formed
    (chunk_size overlap : Z) (txt : str) :
  0 < chunk_size ->
  (forall fuel r,
     DocumentProcessor.chunk_text chunk_size overlap fuel txt = Some r ->
     well_formed (Z.min (len txt) DocumentProcessor.max_text_length) r)
  /\
  (overlap <= 0 ->
   exists r,
     DocumentProcessor.chunk_text chunk_size overlap
       (List.length (DocumentProcessor.truncated txt)) txt = Some r)
  /\
  (forall fuel r,
     MainEphemeral.chunk_text chunk_size overlap fuel txt = Some r ->
     well_formed (len (strip txt)) r)
  /\
  (exists r,
     MainEphemeral.chunk_text chunk_size overlap
       (List.length (strip txt)) txt = Some r)
  /\
  len (strip txt) <= len txt.
Proof.
  intros Hc; split; [|split; [|split; [|split]]].
  - intros fuel r Hr; rewrite <- len_truncated.
    eapply dp_chunk_text_returns_well_formed; eauto.
  - intros Ho; now apply dp_chunk_text_terminates.
  - intros fuel r Hr.
    eapply me_chunk_text_returns_well_formed; eauto.
  - now apply me_chunk_text_terminates.
  - apply len_strip.
Qed.

Lemma chunk_sequences_well_formed_witness :
  0 < 2 /\
  forall r,
    MainEphemeral.chunk_text 2 0 3 hello = Some r ->
    well_formed (len (strip hello)) r.
Proof.
  split; [lia|].
  exact (proj1 (proj2 (proj2
           (chunk_sequences_well_formed 2 0 hello ltac:(lia)))) 3%nat).
Defined.

(** C6, at the 1200-character document with [chunk_size = 500] and
    [overlap = 50]: [DocumentProcessor.chunk_text] does not return; its
    windows start at 0, 450, 900 and then at 1150 again and again.
    The ephemeral chunker returns three chunks, which start at 0, 500
    and 1000: after the window that ends at 500 its next start is 500,
    not 450. *)
Theorem doc1200_windows :
  (forall fuel, DocumentProcessor.chunk_text 500 50 fuel doc1200 = None)
  /\
  map (fun n =>
         w_start (passes n (DocumentProcessor.body 500 50 doc1200)
                    (mkWalk 0 0 [])))
      [0; 1; 2; 3; 4; 5]%nat
  = [0; 450; 900; 1150; 1150; 1150]
  /\
  option_map (map start_char) (MainEphemeral.chunk_text 500 50 3 doc1200)
  = Some [0; 500; 1000]
  /\
  w_start (MainEphemeral.body 500 50 doc1200 (mkWalk 0 0 [])) = 500.
Proof.
  split; [|repeat split; vm_compute; reflexivity].
  intros fuel; apply dp_chunk_text_diverges; [lia|].
  vm_compute; reflexivity.
Qed.

(** C7, at the text "hello" with [chunk_size = 500] and [overlap = 50]:
    [DocumentProcessor.chunk_text] does not return, while the ephemeral
    chunker returns the one chunk that spans the text. *)
Theorem hello_one_chunk :
  (forall fuel, DocumentProcessor.chunk_text 500 50 fuel hello = None)
  /\
  MainEphemeral.chunk_text 500 50 1 hello = Some [mkChunk hello 0 0 5].
Proof.
  split; [|vm_compute; reflexivity].
  intros fuel; apply dp_chunk_text_diverges; [lia|].
  vm_compute; reflexivity.
Qed.

(** C10: in the ephemeral chunker an overlap that is not negative has
    no effect on the result, and in every sequence it returns each
    chunk starts at or after the end of the chunk before it; with a
    positive chunk size it returns on every text. *)
Theorem ephemeral_chunks_never_overlap
    (chunk_size overlap : Z) (txt : str) :
  0 <= overlap ->
  (forall fuel,
     MainEphemeral.chunk_text chunk_size overlap fuel txt
     = MainEphemeral.chunk_text chunk_size 0 fuel txt)
  /\
  (forall fuel r,
     MainEphemeral.chunk_text chunk_size overlap fuel txt = Some r ->
     no_overlap r)
  /\
  (0 < chunk_size ->
   exists r,
     MainEphemeral.chunk_text chunk_size overlap
       (List.length (strip txt)) txt = Some r).
Proof.
  intros Ho; split; [|split].
  - intros fuel; now apply me_chunk_text_overlap.
  - intros fuel r Hr.
    destruct (Z.ltb_spec 0 chunk_size) as [Hc | Hc].
    + apply StronglySorted_Sorted.
      eapply me_chunk_text_returns_well_formed; eauto.
    + destruct (truthy (strip txt)) eqn:Hn.
      * rewrite me_chunk_text_bad_size in Hr by assumption; discriminate.
      * rewrite me_chunk_text_blank in Hr by assumption.
        injection Hr as <-; constructor.
  - intros Hc; now apply me_chunk_text_terminates.
Qed.

Lemma ephemeral_chunks_never_overlap_witness :
  0 <= 50 /\
  MainEphemeral.chunk_text 500 50 3 doc1200
  = MainEphemeral.chunk_text 500 0 3 doc1200.
Proof.
  split; [lia|].
  exact (proj1 (ephemeral_chunks_never_overlap 500 50 doc1200
                  ltac:(lia)) 3%nat).
Defined.

End ChunkerClaims.

(** * The stores *)

Section StoreClaims.

(** C2, for [VectorStore.add_documents]: after adding the chunks [one]
    and [two] and then the chunk [uno] under one filename, the index
    still holds two records and the record of [two] among them,
    whatever the index does with an id it already holds; adding [uno]
    alone leaves one record.  [EphemeralStore.add_documents] does
    replace ([ephemeral_add_twice]). *)
Theorem vector_add_twice_keeps_stale
    (embedding : Type) (encode : str -> embedding)
    (policy : VectorStore.on_existing) :
  let f := lit "a.txt" in
  let c1 := after_add encode policy [] [one; two] f in
  let c2 := after_add encode policy c1 [uno] f in
  VectorStore.total_chunks (VectorStore.get_collection_stats c1) = 2 /\
  VectorStore.total_chunks (VectorStore.get_collection_stats c2) = 2 /\
  VectorStore.has_id c2 (lit "a.txt_1") = true /\
  VectorStore.total_chunks
    (VectorStore.get_collection_stats (after_add encode policy [] [uno] f))
  = 1.
Proof.
  destruct policy; repeat split; reflexivity.
Qed.

(** C8, for [EphemeralStore.list_documents]: after adding "b.txt" and
    then "a.txt" the listing is "b.txt", "a.txt", the order of
    insertion, which is not the lexicographic order.
    [VectorStore.list_documents] does sort
    ([vector_list_documents_sorted]). *)
Theorem ephemeral_list_documents_unsorted :
  let d :=
    EphemeralStore.add_documents
      (EphemeralStore.add_documents EphemeralStore.init [] (lit "b.txt"))
      [] (lit "a.txt") in
  EphemeralStore.list_documents d = [lit "b.txt"; lit "a.txt"] /\
  ~ sorted_names (EphemeralStore.list_documents d) /\
  NoDup (EphemeralStore.list_documents d).
Proof.
  split; [reflexivity|]; split.
  - intros H; inversion H as [|x l _ Hx]; subst.
    inversion Hx as [|y l' Hy _]; subst.
    vm_compute in Hy; discriminate.
  - repeat constructor; cbn; intuition discriminate.
Qed.

(** C5: for a [top_k] that is not negative, [search] returns the first
    [top_k] entries of a ranking of the stored chunks whose score is
    positive; the score of a chunk is ten times the indicator that the
    lower-cased query occurs in the lower-cased text, plus the number
    of distinct words the two share; the ranking is by descending
    score, and chunks of equal score keep their insertion order.  The
    text "the cat sat" scores 12 for the query "cat sat", and "a dog
    ran" scores 0 and is left out. *)
Theorem lexical_search_ranking
    (d : EphemeralStore.documents) (query : str) (top_k : Z) :
  0 <= top_k ->
  (exists ranked,
     EphemeralStore.search d query top_k
     = firstn (Z.to_nat top_k) ranked /\
     Permutation ranked
       (filter (fun h => 0 <? EphemeralStore.hit_score h)
          (all_hits d query)) /\
     StronglySorted desc ranked /\
     forall n,
       filter (fun h => EphemeralStore.hit_score h =? n) ranked
       = filter (fun h => EphemeralStore.hit_score h =? n)
           (filter (fun h => 0 <? EphemeralStore.hit_score h)
              (all_hits d query)))
  /\
  len (EphemeralStore.search d query top_k) <= top_k
  /\
  (forall h,
     In h (all_hits d query) <->
     exists fname chunks chunk,
       In (fname, chunks) d /\ In chunk chunks /\
       EphemeralStore.hit_text h = text chunk /\
       EphemeralStore.hit_filename h = fname /\
       EphemeralStore.hit_chunk_id h = chunk_id chunk /\
       spec_score query (text chunk) (EphemeralStore.hit_score h))
  /\
  map EphemeralStore.hit_score (all_hits pets (lit "cat sat")) = [12; 0]
  /\
  EphemeralStore.search pets (lit "cat sat") 3
  = [EphemeralStore.mkHit (lit "the cat sat") (lit "pets.txt") 0 12].
Proof.
  intros Hk; split; [|split; [|split; [|split]]].
  - exists (EphemeralStore.sort_desc
              (EphemeralStore.scored d (lower query)
                 (set_of (split (lower query))))).
    split; [now apply search_firstn|].
    rewrite <- scored_filter.
    split; [symmetry; apply sort_desc_perm|].
    split; [apply sort_desc_sorted|].
    intros n; apply sort_desc_stable.
  - rewrite search_firstn by assumption.
    unfold len; rewrite length_firstn; lia.
  - intros h; rewrite all_hits_In; split.
    + intros (fname & chunks & chunk & Hd & Hc & ->).
      exists fname, chunks, chunk; cbn.
      repeat split; auto; apply score_spec.
    + intros (fname & chunks & chunk & Hd & Hc & Ht & Hf & Hi & Hs).
      exists fname, chunks, chunk; repeat split; auto.
      destruct h as [t f i n]; cbn in *; subst.
      f_equal; eapply spec_score_unique; [exact Hs | apply score_spec].
  - reflexivity.
  - reflexivity.
Qed.

Lemma lexical_search_ranking_witness :
  0 <= 1 /\ len (EphemeralStore.search pets (lit "sat") 1) <= 1.
Proof.
  split; [lia|].
  exact (proj1 (proj2
           (lexical_search_ranking pets (lit "sat") 1 ltac:(lia)))).
Defined.

End StoreClaims.

(** * Context and answer *)

Section PipelineClaims.

(** C9: context assembly gives the empty string for no hits and the
    one block for one hit; a further hit adds, after the context of
    the hits before it, one blank line and its own block, whose index
    is its 1-based position; and a block is "[Source i from
    filename]:", a newline and the text.  So in
    [RAGPipeline._prepare_context], and so in the [query] of
    [main_ephemeral.py], whose [enumerate] counts from 0 and whose
    block adds 1. *)
Theorem context_blocks (distance : Type) :
  RAGPipeline._prepare_context distance [] = []
  /\
  (forall d, RAGPipeline._prepare_context distance [d]
             = RAGPipeline.block distance 1 d)
  /\
  (forall d0 docs d,
     RAGPipeline._prepare_context distance ((d0 :: docs) ++ [d])
     = RAGPipeline._prepare_context distance (d0 :: docs)
       ++ nl ++ nl
       ++ RAGPipeline.block distance (len (d0 :: docs) + 1) d)
  /\
  (forall i d,
     RAGPipeline.block distance i d
     = lit "[Source " ++ str_of_int i ++ lit " from "
       ++ VectorStore.md_filename (RAGPipeline.doc_metadata d)
       ++ lit "]:" ++ nl ++ RAGPipeline.doc_text d)
  /\
  MainEphemeral.context [] = []
  /\
  (forall h, MainEphemeral.context [h] = MainEphemeral.block 0 h)
  /\
  (forall h0 hits h,
     MainEphemeral.context ((h0 :: hits) ++ [h])
     = MainEphemeral.context (h0 :: hits)
       ++ nl ++ nl ++ MainEphemeral.block (len (h0 :: hits)) h)
  /\
  (forall i h,
     MainEphemeral.block i h
     = lit "[Source " ++ str_of_int (i + 1) ++ lit " from "
       ++ EphemeralStore.hit_filename h
       ++ lit "]:" ++ nl ++ EphemeralStore.hit_text h)
  /\
  RAGPipeline._prepare_context unit (one_doc ++ one_doc)
  = lit "[Source 1 from pets.txt]:" ++ nl ++ lit "the cat sat"
    ++ nl ++ nl
    ++ lit "[Source 2 from pets.txt]:" ++ nl ++ lit "the cat sat".
Proof.
  repeat split; try reflexivity.
  - intros d0 docs d; unfold RAGPipeline._prepare_context.
    rewrite context_loop_snoc, context_loop_cons.
    rewrite join_snoc, <- !app_assoc.
    replace (1 + len (d0 :: docs)) with (len (d0 :: docs) + 1) by lia.
    reflexivity.
  - intros h0 hits h; unfold MainEphemeral.context.
    rewrite blocks_snoc.
    change (MainEphemeral.blocks 0 (h0 :: hits))
      with (MainEphemeral.block 0 h0 :: MainEphemeral.blocks (0 + 1) hits).
    rewrite join_snoc, <- !app_assoc, Z.add_0_l.
    reflexivity.
Qed.

(** C3: when retrieval returns hits, at least one, and the call of
    the configured backend raises, [generate_answer] returns: the
    answer is a non-empty string that starts with "Error" and carries
    the text of the exception, and the sources are those of the hits,
    one for each, in order. *)
Theorem generation_failure_degrades
    (distance : Type) (settings : RAGPipeline.Settings)
    (search : str -> Z -> RAGPipeline.result (list (RAGPipeline.Doc distance)))
    (ollama_generate : str -> str -> str -> RAGPipeline.result str)
    (chat_complete :
       str -> option str -> str -> str -> str -> RAGPipeline.result str)
    (question : str) (top_k : Z)
    (docs : list (RAGPipeline.Doc distance)) (e : RAGPipeline.exn) :
  search question top_k = inr docs ->
  docs <> [] ->
  backend_call_fails settings ollama_generate chat_complete question
    (RAGPipeline._prepare_context distance docs) e ->
  exists a,
    RAGPipeline.generate_answer distance settings search ollama_generate
      chat_complete question top_k = inr a /\
    RAGPipeline.answer a <> [] /\
    startswith (lit "Error") (RAGPipeline.answer a) = true /\
    substring (RAGPipeline.str_of_exn e) (RAGPipeline.answer a) /\
    RAGPipeline.sources a = map (RAGPipeline.make_source distance) docs /\
    RAGPipeline.sources a <> [] /\
    map RAGPipeline.src_filename (RAGPipeline.sources a)
    = map (fun d => VectorStore.md_filename (RAGPipeline.doc_metadata d))
        docs /\
    map RAGPipeline.src_chunk_id (RAGPipeline.sources a)
    = map (fun d => VectorStore.md_chunk_id (RAGPipeline.doc_metadata d))
        docs.
Proof.
  intros Hs Hd Hf.
  unfold RAGPipeline.generate_answer, RAGPipeline.bind; rewrite Hs.
  destruct docs as [|d docs]; [congruence|].
  cbn [truthy negb].
  eexists; split; [reflexivity|].
  cbn [RAGPipeline.answer RAGPipeline.sources].
  assert (Ha :
    exists pre post,
      pre <> [] /\ startswith (lit "Error") pre = true /\
      RAGPipeline._generate_with_llm settings ollama_generate chat_complete
        question (RAGPipeline._prepare_context distance (d :: docs))
      = pre ++ RAGPipeline.str_of_exn e ++ post).
  { unfold RAGPipeline._generate_with_llm.
    destruct Hf as [[Hp Hc] | [[Hp Hc] | [Hp Hc]]]; rewrite Hp.
    - cbn [eqb_str]; change (eqb_str (lit "ollama") (lit "ollama")) with true.
      cbv iota; unfold RAGPipeline._generate_with_ollama; rewrite Hc.
      destruct e as [m | m].
      + exists (lit "Error connecting to Ollama: "),
               (lit ". Make sure Ollama is running.").
        repeat split; discriminate || reflexivity.
      + exists (lit "Error generating answer: "), [].
        repeat split; try discriminate; try reflexivity.
        cbn [RAGPipeline.str_of_exn]; now rewrite app_nil_r.
    - change (eqb_str (lit "openai") (lit "ollama")) with false.
      change (eqb_str (lit "openai") (lit "openai")) with true.
      cbv iota; unfold RAGPipeline._generate_with_openai; rewrite Hc.
      exists (lit "Error generating answer with OpenAI: "), [].
      repeat split; try discriminate; try reflexivity.
      now rewrite app_nil_r.
    - change (eqb_str (lit "groq") (lit "ollama")) with false.
      change (eqb_str (lit "groq") (lit "openai")) with false.
      change (eqb_str (lit "groq") (lit "groq")) with true.
      cbv iota; unfold RAGPipeline._generate_with_groq; rewrite Hc.
      exists (lit "Error generating answer with Groq: "), [].
      repeat split; try discriminate; try reflexivity.
      now rewrite app_nil_r. }
  destruct Ha as (pre & post & Hpre & Hst & ->).
  split; [|split; [|split; [|split; [|split; [|split]]]]].
  - destruct pre; [congruence | discriminate].
  - apply startswith_spec in Hst as [b ->].
    apply startswith_spec; exists (b ++ RAGPipeline.str_of_exn e ++ post).
    now rewrite <- app_assoc.
  - now exists pre, post.
  - reflexivity.
  - discriminate.
  - now rewrite map_map.
  - now rewrite map_map.
Qed.

Lemma generation_failure_degrades_witness :
  exists a,
    RAGPipeline.generate_answer unit groq_settings
      (fun _ _ => inr one_doc) (fun _ _ _ => inr [])
      (fun _ _ _ _ _ => inl (RAGPipeline.OtherException (lit "timed out")))
      (lit "who sat?") 3 = inr a /\
    RAGPipeline.answer a
    = lit "Error generating answer with Groq: timed out" /\
    RAGPipeline.sources a
    = [RAGPipeline.mkSource (lit "the cat sat") (lit "pets.txt") 0].
Proof.
  destruct (generation_failure_degrades unit groq_settings
              (fun _ _ => inr one_doc) (fun _ _ _ => inr [])
              (fun _ _ _ _ _ =>
                 inl (RAGPipeline.OtherException (lit "timed out")))
              (lit "who sat?") 3 one_doc
              (RAGPipeline.OtherException (lit "timed out"))
              eq_refl ltac:(discriminate)
              (or_intror (or_intror (conj eq_refl eq_refl))))
    as (a & Ha & _).
  exists a; split; [exact Ha|].
  injection Ha as <-; split; reflexivity.
Defined.

End PipelineClaims.

(** * Further properties of the chunkers *)

Section WindowFacts.

Lemma lstrip_nil_spaces (s : str) :
  lstrip s = [] -> Forall (fun c => isspace c = true) s.
Proof.
  induction s as [|c s IH]; cbn [lstrip]; [constructor|].
  destruct (isspace c) eqn:E; [|discriminate].
  intros H; constructor; auto.
Qed.

Lemma lstrip_spaces (s : str) :
  Forall (fun c => isspace c = true) (lstrip s) ->
  Forall (fun c => isspace c = true) s.
Proof.
  induction s as [|c s IH]; cbn [lstrip]; [constructor|].
  destruct (isspace c) eqn:E; [|trivial].
  intros H; constructor; auto.
Qed.

(** A string that strips to nothing is made of spaces. *)
Lemma strip_nil_spaces (s : str) :
  strip s = [] -> Forall (fun c => isspace c = true) s.
Proof.
  unfold strip, rstrip; intros H.
  apply lstrip_spaces.
  apply (f_equal (@rev ascii)) in H; rewrite rev_involutive in H.
  cbn [rev] in H; apply lstrip_nil_spaces in H.
  apply Forall_rev in H; now rewrite rev_involutive in H.
Qed.

(** A string that does not strip to nothing begins, once stripped, with
    a character that is not a space. *)
Lemma strip_head (s : str) :
  strip s <> [] -> exists c r, strip s = c :: r /\ isspace c = false.
Proof.
  intros H; destruct (lstrip_head (strip s)) as [E | (c & r & E & Hc)];
    rewrite lstrip_strip in E; [congruence|].
  now exists c, r.
Qed.

Lemma nth_error_slice (l : str) (a b p : Z) :
  0 <= a -> a <= p < b -> b <= len l ->
  nth_error (slice l a b) (Z.to_nat (p - a)) = nth_error l (Z.to_nat p).
Proof.
  intros Ha Hp Hb; unfold slice.
  assert (Ea : clamp (len l) a = a)
    by (unfold clamp; destruct (a <? 0) eqn:E; lia).
  assert (Eb : clamp (len l) b = b)
    by (unfold clamp; destruct (b <? 0) eqn:E; lia).
  rewrite Ea, Eb, nth_error_firstn.
  destruct (Nat.ltb_spec (Z.to_nat (p - a)) (Z.to_nat (b - a))); [|lia].
  rewrite nth_error_skipn; f_equal; lia.
Qed.

Lemma char_at_slice_space (txt : str) (a b p : Z) (ch : ascii) :
  0 <= a -> a <= p < b -> b <= len txt ->
  strip (slice txt a b) = [] ->
  char_at txt p = Some ch -> isspace ch = true.
Proof.
  intros Ha Hp Hb Hs Hc.
  apply strip_nil_spaces in Hs; rewrite Forall_forall in Hs.
  apply Hs.
  unfold char_at in Hc.
  destruct (p <? 0) eqn:E; [discriminate|].
  rewrite <- (nth_error_slice txt a b p) in Hc by lia.
  eapply nth_error_In; eauto.
Qed.

Lemma char_at_range (txt : str) (p : Z) (ch : ascii) :
  char_at txt p = Some ch -> 0 <= p < len txt.
Proof.
  unfold char_at; destruct (p <? 0) eqn:E; [discriminate|].
  intros H; apply Z.ltb_ge in E.
  assert (nth_error txt (Z.to_nat p) <> None) by congruence.
  apply nth_error_Some in H0; unfold len; lia.
Qed.

End WindowFacts.

Section EmitFacts.

Lemma w_chunks_emit (x : Z * list Chunk) (nxt : Z) :
  w_chunks (let '(cid, chunks) := x in mkWalk nxt cid chunks) = snd x.
Proof. now destruct x. Qed.

Lemma w_start_emit (x : Z * list Chunk) (nxt : Z) :
  w_start (let '(cid, chunks) := x in mkWalk nxt cid chunks) = nxt.
Proof. now destruct x. Qed.

Variable txt : str.

Lemma emit_sized (chunk_size : Z) (s : walk) (e : Z) :
  0 <= w_start s -> w_start s < e <= len txt ->
  e - w_start s <= chunk_size ->
  Forall (sized chunk_size txt) (w_chunks s) ->
  Forall (sized chunk_size txt)
    (snd (emit s (strip (slice txt (w_start s) e)) (w_start s) e)).
Proof.
  intros H0 He Hc Hs; unfold emit.
  destruct (truthy (strip (slice txt (w_start s) e))) eqn:E; cbn [snd];
    [|assumption].
  apply Forall_app; split; [assumption|].
  constructor; [|constructor].
  split; [|cbn; lia].
  split; [reflexivity|]; cbn [text start_char end_char]; split.
  - intros N; rewrite N in E; discriminate.
  - pose proof (len_strip (slice txt (w_start s) e)).
    rewrite len_slice_inside in H by lia; lia.
Qed.

Lemma emit_covers (s : walk) (e : Z) :
  0 <= w_start s -> w_start s < e <= len txt ->
  covers_until txt (w_chunks s) (w_start s) ->
  covers_until txt
    (snd (emit s (strip (slice txt (w_start s) e)) (w_start s) e)) e.
Proof.
  intros H0 He Hs p ch Hp Hc Hn.
  destruct (Z.ltb_spec p (w_start s)) as [Hlt | Hge].
  - destruct (Hs p ch Hlt Hc Hn) as (c & Hin & Hr).
    exists c; split; [|assumption].
    unfold emit; destruct (truthy _); cbn [snd]; [|assumption].
    apply in_or_app; now left.
  - unfold emit.
    destruct (truthy (strip (slice txt (w_start s) e))) eqn:E; cbn [snd].
    + eexists; split; [apply in_or_app; right; left; reflexivity|].
      cbn; lia.
    + destruct (strip (slice txt (w_start s) e)) eqn:Es; [|discriminate].
      pose proof (char_at_slice_space txt (w_start s) e p ch
                    H0 ltac:(lia) ltac:(lia) Es Hc).
      congruence.
Qed.

End EmitFacts.

Section ChunkerExtras.

Lemma dp_window_end_width (chunk_size : Z) (txt : str) (start : Z) :
  0 < chunk_size -> 0 <= start -> start < len txt ->
  DocumentProcessor.window_end chunk_size txt start - start <= chunk_size.
Proof.
  intros Hc H0 Hs; unfold DocumentProcessor.window_end.
  set (e := if len txt <? start + chunk_size then len txt
            else start + chunk_size).
  assert (He : start < e <= len txt /\ e - start <= chunk_size)
    by (subst e; destruct (len txt <? start + chunk_size) eqn:E;
        [apply Z.ltb_lt in E | apply Z.ltb_ge in E]; lia).
  destruct ((e <? len txt) && (50 <? len (slice txt start e))) eqn:E; [|lia].
  destruct (break_at_range DocumentProcessor.delimiters
              (slice txt start e) start e) as [-> | Hr]; [lia|].
  rewrite len_slice_inside in Hr by lia; lia.
Qed.

End ChunkerExtras.

Section ChunkerInvariants.

Lemma spaces_lstrip (s : str) :
  Forall (fun c => isspace c = true) s -> lstrip s = [].
Proof.
  induction 1 as [|c s Hc _ IH]; cbn [lstrip]; [reflexivity|].
  now rewrite Hc.
Qed.

Lemma spaces_strip (s : str) :
  Forall (fun c => isspace c = true) s -> strip s = [].
Proof. intros H; unfold strip; now rewrite spaces_lstrip. Qed.

(** A string that does not strip to nothing has a character that is not
    a space. *)
Lemma strip_nonspace (s : str) :
  strip s <> [] ->
  exists p ch, char_at s p = Some ch /\ isspace ch = false.
Proof.
  intros H.
  destruct (Forall_Exists_dec (fun c => isspace c = true)
              (fun c => bool_dec (isspace c) true) s) as [F | E].
  - now apply spaces_strip in F.
  - apply Exists_exists in E as (ch & Hin & Hn).
    apply In_nth_error in Hin as (n & Hn').
    exists (Z.of_nat n), ch; split.
    + unfold char_at.
      destruct (Z.of_nat n <? 0) eqn:E; [apply Z.ltb_lt in E; lia|].
      now rewrite Nat2Z.id.
    + now destruct (isspace ch).
Qed.

Lemma covered_nonempty (cs : list Chunk) (p : Z) : covered cs p -> cs <> [].
Proof. intros (c & Hin & _) ->; exact Hin. Qed.

Lemma slice_In {A} (l : list A) (a b : Z) (x : A) :
  In x (slice l a b) -> In x l.
Proof.
  unfold slice; intros H.
  rewrite <- (firstn_skipn (Z.to_nat (clamp (len l) a)) l).
  apply in_or_app; right.
  rewrite <- (firstn_skipn (Z.to_nat (clamp (len l) b - clamp (len l) a))
                (skipn _ l)).
  apply in_or_app; now left.
Qed.

Lemma sized_nonempty (chunk_size : Z) (txt : str) (c : Chunk) :
  sized chunk_size txt c -> strip txt <> [].
Proof.
  intros [(Ht & Hn & _) _] Hs; apply Hn; rewrite Ht.
  apply strip_nil_spaces in Hs.
  apply spaces_strip.
  rewrite Forall_forall in *; intros x Hx.
  apply Hs; eapply slice_In; exact Hx.
Qed.

Variables (chunk_size overlap : Z).
Variable txt : str.
Hypothesis size_pos : 0 < chunk_size.

Lemma me_body_sized (s : walk) :
  walk_ok (len txt) s /\ Forall (sized chunk_size txt) (w_chunks s) ->
  w_start s < len txt ->
  walk_ok (len txt) (MainEphemeral.body chunk_size overlap txt s) /\
  Forall (sized chunk_size txt)
    (w_chunks (MainEphemeral.body chunk_size overlap txt s)).
Proof.
  intros [Hok Hs] Hlt; split; [now apply me_body_ok|].
  unfold MainEphemeral.body; rewrite w_chunks_emit.
  pose proof (me_window_end_gt chunk_size txt (w_start s) size_pos Hlt).
  pose proof (me_window_end_le chunk_size txt (w_start s)).
  apply emit_sized; auto; try lia.
  - apply Hok.
  - unfold MainEphemeral.window_end.
    destruct (len txt <? w_start s + chunk_size) eqn:E;
      [apply Z.ltb_lt in E|]; lia.
Qed.

Lemma me_body_covers (s : walk) :
  0 <= overlap ->
  walk_ok (len txt) s /\ covers_until txt (w_chunks s) (w_start s) ->
  w_start s < len txt ->
  walk_ok (len txt) (MainEphemeral.body chunk_size overlap txt s) /\
  covers_until txt (w_chunks (MainEphemeral.body chunk_size overlap txt s))
    (w_start (MainEphemeral.body chunk_size overlap txt s)).
Proof.
  intros Ho [Hok Hs] Hlt; split; [now apply me_body_ok|].
  unfold MainEphemeral.body; rewrite w_chunks_emit, w_start_emit.
  pose proof (me_window_end_gt chunk_size txt (w_start s) size_pos Hlt).
  pose proof (me_window_end_le chunk_size txt (w_start s)).
  rewrite Z.max_r by lia.
  apply emit_covers; auto; try lia.
  apply Hok.
Qed.

Lemma dp_body_sized (s : walk) :
  overlap <= 0 ->
  walk_ok (len txt) s /\ Forall (sized chunk_size txt) (w_chunks s) ->
  w_start s < len txt ->
  walk_ok (len txt) (DocumentProcessor.body chunk_size overlap txt s) /\
  Forall (sized chunk_size txt)
    (w_chunks (DocumentProcessor.body chunk_size overlap txt s)).
Proof.
  intros Ho [Hok Hs] Hlt; split; [now apply dp_body_ok|].
  unfold DocumentProcessor.body; rewrite w_chunks_emit.
  pose proof (dp_window_end_gt chunk_size txt (w_start s) size_pos Hlt).
  pose proof (dp_window_end_le chunk_size txt (w_start s)).
  assert (0 <= w_start s) by apply Hok.
  apply emit_sized; auto; try lia.
  now apply dp_window_end_width.
Qed.

Lemma dp_body_covers (s : walk) :
  overlap = 0 ->
  walk_ok (len txt) s /\ covers_until txt (w_chunks s) (w_start s) ->
  w_start s < len txt ->
  walk_ok (len txt) (DocumentProcessor.body chunk_size overlap txt s) /\
  covers_until txt
    (w_chunks (DocumentProcessor.body chunk_size overlap txt s))
    (w_start (DocumentProcessor.body chunk_size overlap txt s)).
Proof.
  intros Ho [Hok Hs] Hlt; split; [apply dp_body_ok; auto; lia|].
  unfold DocumentProcessor.body; rewrite w_chunks_emit, w_start_emit.
  pose proof (dp_window_end_gt chunk_size txt (w_start s) size_pos Hlt).
  pose proof (dp_window_end_le chunk_size txt (w_start s)).
  rewrite Ho, Z.sub_0_r.
  apply emit_covers; auto; try lia.
  apply Hok.
Qed.

End ChunkerInvariants.

Section ChunkerExtraTheorems.

Lemma dp_chunk_text_sized (chunk_size overlap : Z) (txt : str)
    (fuel : nat) (r : list Chunk) :
  0 < chunk_size ->
  DocumentProcessor.chunk_text chunk_size overlap fuel txt = Some r ->
  Forall (sized chunk_size (DocumentProcessor.truncated txt)) r.
Proof.
  intros Hc Hr; destruct (truthy (strip txt)) eqn:Hn.
  - destruct (Z.ltb_spec 0 overlap) as [Ho | Ho].
    + rewrite dp_chunk_text_diverges in Hr by assumption; discriminate.
    + rewrite dp_chunk_text_nonblank in Hr by assumption.
      apply while_invariant with
        (I := fun s =>
           walk_ok (len (DocumentProcessor.truncated txt)) s /\
           Forall (sized chunk_size (DocumentProcessor.truncated txt))
             (w_chunks s)) in Hr as (s' & [_ Hs'] & _ & ->);
        [assumption | |].
      * intros; now apply dp_body_sized.
      * split; [apply walk_ok_init | constructor].
  - rewrite dp_chunk_text_blank in Hr by assumption.
    injection Hr as <-; constructor.
Qed.

Lemma me_chunk_text_sized (chunk_size overlap : Z) (txt : str)
    (fuel : nat) (r : list Chunk) :
  0 < chunk_size ->
  MainEphemeral.chunk_text chunk_size overlap fuel txt = Some r ->
  Forall (sized chunk_size (strip txt)) r.
Proof.
  intros Hc Hr; destruct (truthy (strip txt)) eqn:Hn.
  - rewrite me_chunk_text_nonblank in Hr by assumption.
    apply while_invariant with
      (I := fun s =>
         walk_ok (len (strip txt)) s /\
         Forall (sized chunk_size (strip txt)) (w_chunks s))
      in Hr as (s' & [_ Hs'] & _ & ->); [assumption | |].
    + intros; now apply me_body_sized.
    + split; [apply walk_ok_init | constructor].
  - rewrite me_chunk_text_blank in Hr by assumption.
    injection Hr as <-; constructor.
Qed.

(** X1: with a positive chunk size, each chunk that either chunker
    returns carries the stripped text between its own [start_char] and
    [end_char] in the text walked, that text is not empty and no longer
    than the window, and the window is at most [chunk_size] wide. *)
Theorem returned_chunks_match_text (chunk_size overlap : Z) (txt : str) :
  0 < chunk_size ->
  (forall fuel r,
     DocumentProcessor.chunk_text chunk_size overlap fuel txt = Some r ->
     Forall (sized chunk_size (DocumentProcessor.truncated txt)) r)
  /\
  (forall fuel r,
     MainEphemeral.chunk_text chunk_size overlap fuel txt = Some r ->
     Forall (sized chunk_size (strip txt)) r).
Proof.
  intros Hc; split; intros fuel r Hr.
  - now apply dp_chunk_text_sized in Hr.
  - now apply me_chunk_text_sized in Hr.
Qed.

Lemma returned_chunks_match_text_witness :
  0 < 2 /\
  forall r,
    MainEphemeral.chunk_text 2 0 3 hello = Some r ->
    Forall (sized 2 (strip hello)) r.
Proof.
  split; [lia|].
  exact (proj2 (returned_chunks_match_text 2 0 hello ltac:(lia)) 3%nat).
Defined.

Lemma me_chunk_text_covers
    (chunk_size overlap : Z) (txt : str) (fuel : nat) (r : list Chunk) :
  0 < chunk_size -> 0 <= overlap ->
  MainEphemeral.chunk_text chunk_size overlap fuel txt = Some r ->
  covers_until (strip txt) r (len (strip txt)) /\
  (r = [] <-> strip txt = []).
Proof.
  intros Hc Ho Hr.
  assert (Hcov : covers_until (strip txt) r (len (strip txt))).
  { destruct (truthy (strip txt)) eqn:Hn.
    - rewrite me_chunk_text_nonblank in Hr by assumption.
      apply while_invariant with
        (I := fun s =>
           walk_ok (len (strip txt)) s /\
           covers_until (strip txt) (w_chunks s) (w_start s))
        in Hr as (s' & [_ Hs'] & Hex & ->).
      + intros p ch Hp; apply Hs'; lia.
      + intros; now apply me_body_covers.
      + split; [apply walk_ok_init|].
        intros p ch Hp Hch; apply char_at_range in Hch; cbn in Hp; lia.
    - destruct (strip txt); [|discriminate].
      intros p ch Hp Hch; apply char_at_range in Hch.
      unfold len in Hch; cbn in Hch; lia. }
  split; [exact Hcov|]; split.
  - intros -> .
    destruct (strip txt) as [|c s] eqn:E; [reflexivity|exfalso].
    assert (N : strip (strip txt) <> []) by (rewrite strip_idem, E; discriminate).
    apply strip_nonspace in N as (p & ch & Hch & Hsp).
    rewrite <- E in Hcov.
    pose proof (char_at_range _ _ _ Hch) as Hp.
    destruct (Hcov p ch ltac:(lia) Hch Hsp) as (c0 & [] & _).
  - intros E.
    rewrite me_chunk_text_blank in Hr by (rewrite E; reflexivity).
    now injection Hr as <-.
Qed.

(** X2: with a positive chunk size and an overlap that is not negative,
    the chunks that the ephemeral chunker returns leave out no character
    of the stripped text other than spaces: each lies in the window of a
    chunk.  So the result is empty exactly when the text is blank. *)
Theorem ephemeral_chunks_cover_text
    (chunk_size overlap : Z) (txt : str) (fuel : nat) (r : list Chunk) :
  0 < chunk_size -> 0 <= overlap ->
  MainEphemeral.chunk_text chunk_size overlap fuel txt = Some r ->
  covers_until (strip txt) r (len (strip txt)) /\
  (r = [] <-> strip txt = []).
Proof.
  intros Hc Ho Hr.
  destruct (me_chunk_text_covers chunk_size overlap txt fuel r Hc Ho Hr)
    as [Hcov Hempty].
  split; [exact Hcov | exact Hempty].
Qed.

Lemma ephemeral_chunks_cover_text_witness :
  covers_until (strip hello)
    [mkChunk (lit "he") 0 0 2; mkChunk (lit "ll") 1 2 4;
     mkChunk (lit "o") 2 4 5] (len (strip hello)).
Proof.
  exact (proj1 (ephemeral_chunks_cover_text 2 0 hello 3
                  [mkChunk (lit "he") 0 0 2; mkChunk (lit "ll") 1 2 4;
                   mkChunk (lit "o") 2 4 5]
                  ltac:(lia) ltac:(lia) eq_refl)).
Defined.

(** X3: with a positive chunk size and no overlap, the chunks that
    [DocumentProcessor.chunk_text] returns leave out no character of the
    text walked other than spaces, and the result is empty exactly when
    that text is blank. *)
Theorem document_processor_chunks_cover_text
    (chunk_size : Z) (txt : str) (fuel : nat) (r : list Chunk) :
  0 < chunk_size ->
  DocumentProcessor.chunk_text chunk_size 0 fuel txt = Some r ->
  covers_until (DocumentProcessor.truncated txt) r
    (len (DocumentProcessor.truncated txt)) /\
  (r = [] <-> strip (DocumentProcessor.truncated txt) = []).
Proof.
  intros Hc Hr.
  pose proof (dp_chunk_text_sized chunk_size 0 txt fuel r Hc Hr) as Hsz.
  assert (Hcov : truthy (strip txt) = true ->
                 covers_until (DocumentProcessor.truncated txt) r
                   (len (DocumentProcessor.truncated txt))).
  { intros Hn.
    rewrite dp_chunk_text_nonblank in Hr by assumption.
    apply while_invariant with
      (I := fun s =>
         walk_ok (len (DocumentProcessor.truncated txt)) s /\
         covers_until (DocumentProcessor.truncated txt)
           (w_chunks s) (w_start s))
      in Hr as (s' & [_ Hs'] & Hex & ->).
    + intros p ch Hp; apply Hs'; lia.
    + intros; now apply dp_body_covers.
    + split; [apply walk_ok_init|].
      intros p ch Hp Hch; apply char_at_range in Hch; cbn in Hp; lia. }
  destruct (truthy (strip txt)) eqn:Hn.
  - specialize (Hcov eq_refl); split; [exact Hcov|]; split.
    + intros ->.
      destruct (strip (DocumentProcessor.truncated txt)) as [|c s] eqn:E;
        [reflexivity|exfalso].
      assert (N : strip (DocumentProcessor.truncated txt) <> [])
        by (rewrite E; discriminate).
      apply strip_nonspace in N as (p & ch & Hch & Hsp).
      pose proof (char_at_range _ _ _ Hch) as Hp.
      destruct (Hcov p ch ltac:(lia) Hch Hsp) as (c0 & [] & _).
    + intros E; destruct r as [|c r]; [reflexivity|].
      inversion Hsz as [|? ? Hs _]; subst.
      now apply sized_nonempty in Hs.
  - rewrite dp_chunk_text_blank in Hr by assumption.
    injection Hr as <-.
    assert (Et : DocumentProcessor.truncated txt = txt \/
                 DocumentProcessor.truncated txt
                 = slice_to txt DocumentProcessor.max_text_length)
      by (unfold DocumentProcessor.truncated;
          destruct (_ <? _); auto).
    assert (Es : strip txt = []) by (destruct (strip txt); [auto|discriminate]).
    assert (Eb : strip (DocumentProcessor.truncated txt) = []).
    { apply spaces_strip; apply strip_nil_spaces in Es.
      destruct Et as [-> | ->]; [assumption|].
      rewrite Forall_forall in *; intros x Hx.
      apply Es; eapply slice_In; exact Hx. }
    split; [|tauto].
    intros p ch Hp Hch Hsp.
    apply strip_nil_spaces in Eb; rewrite Forall_forall in Eb.
    unfold char_at in Hch; destruct (p <? 0); [discriminate|].
    apply nth_error_In, Eb in Hch; congruence.
Qed.

Lemma document_processor_chunks_cover_text_witness :
  covers_until (DocumentProcessor.truncated hello)
    [mkChunk (lit "hello") 0 0 5] (len (DocumentProcessor.truncated hello)).
Proof.
  exact (proj1 (document_processor_chunks_cover_text 500 hello 1
                  [mkChunk (lit "hello") 0 0 5] ltac:(lia) eq_refl)).
Defined.

Lemma me_chunk_text_one_window_witness :
  MainEphemeral.chunk_text 500 50 1 hello
  = Some [mkChunk (strip hello) 0 0 (len (strip hello))].
Proof.
  exact (me_chunk_text_one_window 500 50 0 hello eq_refl ltac:(vm_compute; discriminate)).
Defined.

Lemma dp_chunk_text_one_window_witness :
  DocumentProcessor.chunk_text 500 0 1 hello
  = Some [mkChunk (strip hello) 0 0 (len hello)].
Proof.
  exact (dp_chunk_text_one_window 500 0 0 hello ltac:(lia) eq_refl
           ltac:(vm_compute; discriminate) ltac:(vm_compute; discriminate)).
Defined.

End ChunkerExtraTheorems.

Section SentenceBreak.

(** Where [rfind] answers an index, the pattern stands there. *)
Lemma rfind_occurs (p s : str) :
  0 <= rfind p s ->
  startswith p (skipn (Z.to_nat (rfind p s)) s) = true.
Proof.
  induction s as [|c s IH]; cbn [rfind].
  - destruct (startswith p []) eqn:E; [intros _; exact E | lia].
  - destruct (0 <=? rfind p s) eqn:E0.
    + apply Z.leb_le in E0; intros _.
      replace (Z.to_nat (rfind p s + 1)) with (S (Z.to_nat (rfind p s)))
        by lia.
      cbn [skipn]; now apply IH.
    + destruct (startswith p (c :: s)) eqn:E; [intros _; exact E | lia].
Qed.

Lemma rfind_split (p s : str) :
  0 <= rfind p s ->
  exists pre post, s = pre ++ p ++ post /\ len pre = rfind p s.
Proof.
  intros H.
  pose proof (rfind_occurs p s H) as Ho.
  apply startswith_spec in Ho as [post Hpost].
  exists (firstn (Z.to_nat (rfind p s)) s), post; split.
  - rewrite <- Hpost; symmetry; apply firstn_skipn.
  - destruct (rfind_range p s) as [? | [_ Hr]]; [lia|].
    pose proof (len_nonneg p).
    unfold len in *; rewrite length_firstn; lia.
Qed.

Lemma break_at_cases (ds : list str) (chunk : str) (start e : Z) :
  DocumentProcessor.break_at ds chunk start e = e \/
  exists d pre post,
    In d ds /\ chunk = pre ++ d ++ post /\ len chunk < 2 * len pre /\
    DocumentProcessor.break_at ds chunk start e = start + len pre + len d.
Proof.
  induction ds as [|d ds IH]; cbn [DocumentProcessor.break_at]; [now left|].
  destruct (negb (rfind d chunk =? -1) && (len chunk <? 2 * rfind d chunk))
    eqn:E.
  - right.
    apply andb_prop in E as [E1 E2].
    apply negb_true_iff, Z.eqb_neq in E1; apply Z.ltb_lt in E2.
    pose proof (len_nonneg chunk).
    destruct (rfind_split d chunk ltac:(lia)) as (pre & post & Hs & Hl).
    exists d, pre, post; repeat split; auto; [now left | lia | lia].
  - destruct IH as [IH | (d' & pre & post & Hin & IH)]; [now left|].
    right; exists d', pre, post; split; [now right | exact IH].
Qed.

Lemma slice_prefix (txt : str) (start e' e : Z) :
  0 <= start -> start <= e' <= e -> e <= len txt ->
  slice txt start e' = firstn (Z.to_nat (e' - start)) (slice txt start e).
Proof.
  intros H0 He Hl; unfold slice.
  assert (Ea : clamp (len txt) start = start)
    by (unfold clamp; destruct (start <? 0) eqn:E; lia).
  assert (Eb : clamp (len txt) e = e)
    by (unfold clamp; destruct (e <? 0) eqn:E; lia).
  assert (Eb' : clamp (len txt) e' = e')
    by (unfold clamp; destruct (e' <? 0) eqn:E; lia).
  rewrite Ea, Eb, Eb', firstn_firstn; f_equal; lia.
Qed.

(** X4: the sentence heuristic of [DocumentProcessor.chunk_text].  A
    window that starts inside the text and stops before its end either
    keeps its full width of [chunk_size] characters, or ends right after
    one of the four delimiters, which begins past the middle of the full
    window; a window of 50 characters or fewer is never shortened. *)
Theorem sentence_break (chunk_size : Z) (txt : str) (start : Z) :
  0 < chunk_size -> 0 <= start -> start + chunk_size < len txt ->
  let e := DocumentProcessor.window_end chunk_size txt start in
  (e = start + chunk_size \/
   exists d pre,
     In d DocumentProcessor.delimiters /\
     slice txt start e = pre ++ d /\
     chunk_size < 2 * len pre /\ e <= start + chunk_size)
  /\
  (chunk_size <= 50 -> e = start + chunk_size).
Proof.
  intros Hc H0 Hs; cbv zeta; unfold DocumentProcessor.window_end.
  destruct (len txt <? start + chunk_size) eqn:E0;
    [apply Z.ltb_lt in E0; lia|].
  assert (Hlen : len (slice txt start (start + chunk_size)) = chunk_size)
    by (rewrite len_slice_inside; lia).
  rewrite Hlen.
  destruct (start + chunk_size <? len txt) eqn:E1;
    [|apply Z.ltb_ge in E1; lia].
  cbn [andb].
  destruct (50 <? chunk_size) eqn:E2;
    [apply Z.ltb_lt in E2 | apply Z.ltb_ge in E2];
    [|split; [now left | reflexivity]].
  split; [|lia].
  destruct (break_at_cases DocumentProcessor.delimiters
              (slice txt start (start + chunk_size)) start
              (start + chunk_size))
    as [-> | (d & pre & post & Hin & Hsp & Hhalf & ->)]; [now left|].
  right; exists d, pre.
  assert (Hfit : len pre + len d + len post = chunk_size)
    by (rewrite <- Hlen, Hsp, !len_app; lia).
  pose proof (len_nonneg pre); pose proof (len_nonneg d);
    pose proof (len_nonneg post).
  repeat split; [assumption | | lia | lia].
  rewrite (slice_prefix txt start _ (start + chunk_size)) by lia.
  rewrite Hsp, app_assoc.
  replace (Z.to_nat (start + len pre + len d - start))
    with (List.length (pre ++ d) + 0)%nat
    by (rewrite length_app; unfold len; lia).
  rewrite firstn_app_2; cbn [firstn]; now rewrite app_nil_r.
Qed.

Lemma sentence_break_witness :
  let txt := repeat "a"%char 40 ++ lit ". " ++ repeat "b"%char 40 in
  let e := DocumentProcessor.window_end 60 txt 0 in
  e = 0 + 60 \/
  exists d pre,
    In d DocumentProcessor.delimiters /\
    slice txt 0 e = pre ++ d /\ 60 < 2 * len pre /\ e <= 0 + 60.
Proof.
  exact (proj1 (sentence_break 60
                  (repeat "a"%char 40 ++ lit ". " ++ repeat "b"%char 40) 0
                  ltac:(lia) ltac:(lia) ltac:(vm_compute; reflexivity))).
Defined.

End SentenceBreak.

(** * Further properties of the in-memory store *)

Section EphemeralStoreExtras.
Import EphemeralStore.

Lemma stored_setitem_same (d : documents) (k : str) (v : list Chunk) :
  stored (setitem d k v) k = Some v.
Proof.
  induction d as [|[k' v'] d IH]; cbn [setitem stored].
  - now rewrite eqb_str_refl.
  - destruct (eqb_str k' k) eqn:E; cbn [stored].
    + now rewrite eqb_str_refl.
    + now rewrite E.
Qed.

Lemma stored_setitem_other (d : documents) (k g : str) (v : list Chunk) :
  g <> k -> stored (setitem d k v) g = stored d g.
Proof.
  intros N; induction d as [|[k' v'] d IH]; cbn [setitem stored].
  - destruct (eqb_str k g) eqn:E; [apply eqb_str_eq in E; congruence|].
    reflexivity.
  - destruct (eqb_str k' k) eqn:E; cbn [stored].
    + apply eqb_str_eq in E; subst k'.
      destruct (eqb_str k g) eqn:E'; [apply eqb_str_eq in E'; congruence|].
      reflexivity.
    + now rewrite IH.
Qed.

Lemma stored_None (d : documents) (f : str) :
  stored d f = None <-> ~ In f (list_documents d).
Proof.
  unfold list_documents; induction d as [|[k v] d IH]; cbn [stored map In fst].
  - tauto.
  - destruct (eqb_str k f) eqn:E.
    + apply eqb_str_eq in E; split; [discriminate | tauto].
    + apply eqb_str_neq in E; rewrite IH; tauto.
Qed.

Lemma list_documents_setitem (d : documents) (k : str) (v : list Chunk) :
  list_documents (setitem d k v)
  = if mem k (list_documents d) then list_documents d
    else list_documents d ++ [k].
Proof.
  unfold list_documents, mem.
  induction d as [|[k' v'] d IH]; cbn [setitem map fst existsb app];
    [reflexivity|].
  destruct (eqb_str k' k) eqn:E.
  - apply eqb_str_eq in E; subst k'.
    now rewrite eqb_str_refl.
  - assert (E' : eqb_str k k' = false)
      by (apply eqb_str_neq; apply eqb_str_neq in E; congruence).
    rewrite E'; cbn [orb map fst]; rewrite IH.
    now destruct (existsb (eqb_str k) (map fst d)).
Qed.

Lemma list_documents_delete (d : documents) (f : str) :
  list_documents (delete_document d f)
  = filter (fun k => negb (eqb_str k f)) (list_documents d).
Proof.
  unfold list_documents, delete_document.
  induction d as [|[k v] d IH]; cbn [filter map fst]; [reflexivity|].
  destruct (negb (eqb_str k f)); cbn [map fst]; now rewrite IH.
Qed.

Lemma delete_absent (d : documents) (f : str) :
  ~ In f (list_documents d) -> delete_document d f = d.
Proof.
  unfold list_documents, delete_document.
  induction d as [|[k v] d IH]; cbn [filter map fst In]; [reflexivity|].
  intros N.
  destruct (eqb_str k f) eqn:E; [apply eqb_str_eq in E; tauto|].
  cbn [negb]; rewrite IH; tauto.
Qed.

Lemma stored_delete_same (d : documents) (f : str) :
  stored (delete_document d f) f = None.
Proof.
  apply stored_None; rewrite list_documents_delete, filter_In.
  intros [_ H]; now rewrite eqb_str_refl in H.
Qed.

Lemma stored_delete_other (d : documents) (f g : str) :
  g <> f -> stored (delete_document d f) g = stored d g.
Proof.
  intros N; unfold delete_document.
  induction d as [|[k v] d IH]; cbn [filter stored fst]; [reflexivity|].
  destruct (eqb_str k f) eqn:E; cbn [negb stored].
  - apply eqb_str_eq in E; subst k.
    destruct (eqb_str f g) eqn:E'; [apply eqb_str_eq in E'; congruence|].
    exact IH.
  - now rewrite IH.
Qed.

Lemma reachable_NoDup (d : documents) :
  reachable d -> NoDup (list_documents d).
Proof.
  induction 1 as [|d chunks f _ IH|d f _ IH|d _ IH].
  - constructor.
  - unfold add_documents; rewrite list_documents_setitem.
    destruct (mem f (list_documents d)) eqn:E; [assumption|].
    apply NoDup_app; repeat split; auto.
    + repeat constructor; intros [].
    + intros x Hx [<- | []].
      apply mem_In in Hx; congruence.
  - rewrite list_documents_delete; now apply NoDup_filter.
  - constructor.
Qed.

Lemma stats_setitem (d : documents) (k : str) (v : list Chunk) :
  total_chunks (stats (setitem d k v))
  = total_chunks (stats d) - stored_len d k + len v /\
  total_documents (stats (setitem d k v))
  = total_documents (stats d) + 1 - stored_count d k.
Proof.
  unfold stats, stored_len, stored_count; cbn [total_chunks total_documents].
  induction d as [|[k' v'] d [IH1 IH2]]; cbn [setitem stored map fold_right snd].
  - unfold len; cbn; lia.
  - destruct (eqb_str k' k) eqn:E; cbn [map fold_right snd].
    + rewrite !len_cons; lia.
    + rewrite IH1, !len_cons, IH2; lia.
Qed.

Lemma stats_delete (d : documents) (f : str) :
  NoDup (list_documents d) ->
  total_chunks (stats (delete_document d f))
  = total_chunks (stats d) - stored_len d f /\
  total_documents (stats (delete_document d f))
  = total_documents (stats d) - stored_count d f.
Proof.
  unfold stats, stored_len, stored_count; cbn [total_chunks total_documents].
  induction d as [|[k v] d IH]; intros N.
  - unfold len; cbn; lia.
  - unfold list_documents in N; cbn [map fst] in N.
    inversion N as [|? ? Hk Hd]; subst.
    cbn [stored].
    destruct (eqb_str k f) eqn:E.
    + apply eqb_str_eq in E; subst k.
      change (delete_document ((f, v) :: d) f)
        with (if negb (eqb_str f f) then (f, v) :: delete_document d f
              else delete_document d f).
      rewrite eqb_str_refl; cbn [negb].
      rewrite (delete_absent d f Hk); cbn [map fold_right snd].
      rewrite len_cons; lia.
    + change (delete_document ((k, v) :: d) f)
        with (if negb (eqb_str k f) then (k, v) :: delete_document d f
              else delete_document d f).
      rewrite E; cbn [negb map fold_right snd].
      destruct (IH Hd) as [IH1 IH2].
      rewrite IH1, !len_cons, IH2; lia.
Qed.

(** X7: the filenames of a store built from the empty one by adding,
    deleting and clearing are distinct. *)
Theorem ephemeral_store_keys_unique (d : documents) :
  reachable d -> NoDup (list_documents d).
Proof.
  intros R; apply reachable_NoDup; exact R.
Qed.

Lemma ephemeral_store_keys_unique_witness : NoDup (list_documents pets).
Proof.
  exact (ephemeral_store_keys_unique pets
           (reach_add init [cat_chunk; dog_chunk] (lit "pets.txt")
              reach_init)).
Defined.

(** X8: after [add_documents(chunks, f)] the chunks stored under [f]
    are [chunks] and those under every other filename are as before;
    [f] keeps its place in the listing if it was there and is listed
    last if not; the chunk total changes by the new count less the old,
    and the document total grows by one only for a new filename. *)
Theorem ephemeral_add_lookup (d : documents) (chunks : list Chunk)
    (f : str) :
  stored (add_documents d chunks f) f = Some chunks /\
  (forall g, g <> f -> stored (add_documents d chunks f) g = stored d g) /\
  list_documents (add_documents d chunks f)
  = (if mem f (list_documents d) then list_documents d
     else list_documents d ++ [f]) /\
  total_chunks (stats (add_documents d chunks f))
  = total_chunks (stats d) - stored_len d f + len chunks /\
  total_documents (stats (add_documents d chunks f))
  = total_documents (stats d) + 1 - stored_count d f.
Proof.
  unfold add_documents; split; [apply stored_setitem_same|].
  split; [intros; now apply stored_setitem_other|].
  split; [apply list_documents_setitem | apply stats_setitem].
Qed.

(** X9: in a store that the operations can build,
    [delete_document(f)] leaves nothing stored under [f], leaves every
    other filename with its chunks and in its place, lowers the chunk
    total by the number of chunks [f] had and the document total by one
    if [f] was stored. *)
Theorem ephemeral_delete (d : documents) (f : str) :
  reachable d ->
  stored (delete_document d f) f = None /\
  (forall g, g <> f -> stored (delete_document d f) g = stored d g) /\
  list_documents (delete_document d f)
  = filter (fun k => negb (eqb_str k f)) (list_documents d) /\
  ~ In f (list_documents (delete_document d f)) /\
  total_chunks (stats (delete_document d f))
  = total_chunks (stats d) - stored_len d f /\
  total_documents (stats (delete_document d f))
  = total_documents (stats d) - stored_count d f.
Proof.
  intros R; split; [apply stored_delete_same|].
  split; [intros; now apply stored_delete_other|].
  split; [apply list_documents_delete|].
  split; [apply stored_None, stored_delete_same|].
  apply stats_delete; now apply reachable_NoDup.
Qed.

Lemma ephemeral_delete_witness :
  total_chunks (stats (delete_document pets (lit "pets.txt")))
  = total_chunks (stats pets) - stored_len pets (lit "pets.txt").
Proof.
  exact (proj1 (proj2 (proj2 (proj2 (proj2
           (ephemeral_delete pets (lit "pets.txt")
              (reach_add init [cat_chunk; dog_chunk] (lit "pets.txt")
                 reach_init))))))).
Defined.

(** X10: deleting a filename that is not stored changes nothing. *)
Theorem ephemeral_delete_missing (d : documents) (f : str) :
  ~ In f (list_documents d) ->
  delete_document d f = d /\ stats (delete_document d f) = stats d.
Proof.
  intros N; rewrite (delete_absent d f N); auto.
Qed.

Lemma ephemeral_delete_missing_witness :
  delete_document pets (lit "none.txt") = pets /\
  stats (delete_document pets (lit "none.txt")) = stats pets.
Proof.
  apply (ephemeral_delete_missing pets (lit "none.txt")).
  cbn; intros [H | []]; discriminate.
Defined.

(** X11: deleting after adding under the same filename is deleting
    alone. *)
Theorem ephemeral_add_delete (d : documents) (chunks : list Chunk)
    (f : str) :
  delete_document (add_documents d chunks f) f = delete_document d f.
Proof.
  unfold add_documents, delete_document.
  induction d as [|[k v] d IH]; cbn [setitem filter fst].
  - now rewrite eqb_str_refl.
  - destruct (eqb_str k f) eqn:E; cbn [filter fst negb].
    + now rewrite eqb_str_refl.
    + now rewrite E, IH.
Qed.

End EphemeralStoreExtras.

Section EphemeralSearchExtras.
Import EphemeralStore.

Lemma lower_char_idem (c : ascii) : lower_char (lower_char c) = lower_char c.
Proof.
  destruct c as [[] [] [] [] [] [] [] []]; vm_compute; reflexivity.
Qed.

Lemma lower_idem (s : str) : lower (lower s) = lower s.
Proof.
  unfold lower; rewrite map_map.
  apply map_ext; intros c; apply lower_char_idem.
Qed.

Lemma search_slice (d : documents) (query : str) (top_k : Z) :
  search d query top_k
  = slice_to
      (sort_desc (scored d (lower query) (set_of (split (lower query)))))
      top_k.
Proof.
  unfold search; destruct d as [|kv d]; cbn [truthy negb]; [|reflexivity].
  symmetry; apply len_zero_nil.
  pose proof (len_slice_le (@nil Hit) 0 top_k).
  pose proof (len_nonneg (slice_to (@nil Hit) top_k)).
  unfold slice_to in *; cbn [scored flat_map sort_desc].
  change (len (@nil Hit)) with 0 in *; lia.
Qed.



(** X13: [search] does not tell upper case from lower: the query may
    be given lower-cased, and the score of a text is that of the text
    lower-cased. *)
Theorem search_ignores_case (d : documents) (query : str) (top_k : Z) :
  search d (lower query) top_k = search d query top_k /\
  forall q q_words t, score q q_words (lower t) = score q q_words t.
Proof.
  split.
  - now rewrite !search_slice, lower_idem.
  - intros q q_words t; unfold score; now rewrite lower_idem.
Qed.

End EphemeralSearchExtras.

(** * Further properties of the endpoints and the pipeline *)

Section EndpointExtras.

Lemma len_slice_to_200 (t : str) :
  200 < len t -> len (slice_to t 200) = 200.
Proof. intros H; unfold slice_to; rewrite len_slice_inside; lia. Qed.

(** X14: the text of a source, in [RAGPipeline.generate_answer] as in
    the [query] of [main_ephemeral.py]: a text of at most 200 characters
    is kept whole; a longer one is cut to its first 200 characters
    followed by three dots, 203 characters in all. *)
Theorem source_text_bounded (t : str) :
  RAGPipeline.source_text t = MainEphemeral.source_text t /\
  len (RAGPipeline.source_text t) <= 203 /\
  (len t <= 200 -> RAGPipeline.source_text t = t) /\
  (200 < len t ->
   RAGPipeline.source_text t = firstn 200 t ++ lit "..." /\
   len (RAGPipeline.source_text t) = 203).
Proof.
  split; [reflexivity|].
  unfold RAGPipeline.source_text.
  destruct (200 <? len t) eqn:E;
    [apply Z.ltb_lt in E | apply Z.ltb_ge in E].
  - split; [|split; [lia|intros _; split]].
    + rewrite len_app, len_slice_to_200 by assumption.
      unfold len; cbn; lia.
    + now rewrite slice_to_firstn by lia.
    + rewrite len_app, len_slice_to_200 by assumption.
      unfold len; cbn; lia.
  - split; [lia|]; split; [reflexivity | lia].
Qed.


End EndpointExtras.

Section QueryExtras.

(** X16: the [query] of [main_ephemeral.py] raises in two cases only:
    with status 400 when the question is blank, and with status 500
    when there are hits and no client.  Otherwise it returns: at most
    three sources, those of the hits in their order; with no hit, the
    fixed message and no source, whether or not a client is there; with
    hits and a client whose call raises, the text "Generation error: "
    and the text of the exception. *)
Theorem query_outcomes
    (client : option (str -> str -> str + str)) (GROQ_MODEL : str)
    (store : EphemeralStore.documents) (question : str) :
  let q := strip question in
  let hits := EphemeralStore.search store q 3 in
  match MainEphemeral.query client GROQ_MODEL store question with
  | inl e =>
      (MainEphemeral.status_code e = 400 /\ q = []) \/
      (MainEphemeral.status_code e = 500 /\ q <> [] /\ hits <> [] /\
       client = None)
  | inr resp =>
      q <> [] /\
      MainEphemeral.qr_sources resp = map MainEphemeral.make_source hits /\
      len (MainEphemeral.qr_sources resp) <= 3 /\
      (hits = [] ->
       MainEphemeral.qr_answer resp
       = lit "No documents indexed. Upload docs first.") /\
      (hits <> [] ->
       exists create,
         client = Some create /\
         match create GROQ_MODEL
                 (MainEphemeral.make_prompt (MainEphemeral.context hits) q)
         with
         | inr content => MainEphemeral.qr_answer resp = content
         | inl e =>
             MainEphemeral.qr_answer resp = lit "Generation error: " ++ e
         end)
  end.
Proof.
  cbv zeta; unfold MainEphemeral.query.
  assert (Hlen : len (EphemeralStore.search store (strip question) 3) <= 3).
  { rewrite search_firstn by lia.
    unfold len; rewrite length_firstn; lia. }
  destruct (strip question) as [|c q] eqn:Eq; cbn [truthy negb].
  - left; split; reflexivity.
  - rewrite <- Eq in *.
    assert (Nq : strip question <> []) by (rewrite Eq; discriminate).
    destruct (EphemeralStore.search store (strip question) 3)
      as [|h hits] eqn:Eh; cbn [truthy negb].
    + cbn [MainEphemeral.qr_sources MainEphemeral.qr_answer].
      split; [assumption|]; split; [reflexivity|]; split;
        [unfold len; cbn; lia|].
      split; [reflexivity | congruence].
    + destruct client as [create|].
      * cbn [MainEphemeral.qr_sources MainEphemeral.qr_answer].
        split; [assumption|]; split; [reflexivity|]; split.
        -- unfold len in *; rewrite length_map; exact Hlen.
        -- split; [discriminate|].
           intros _; exists create; split; [reflexivity|].
           destruct (create GROQ_MODEL _); reflexivity.
      * right; repeat split; auto; discriminate.
Qed.

(** X17: [RAGPipeline.generate_answer] raises exactly when the
    retrieval raises, and then the same exception, whatever the
    provider and whatever the backends do.  When the retrieval returns,
    the sources are those of the retrieved chunks, one each and in
    order, and with no chunk retrieved the answer is the fixed message
    and no backend decides it. *)
Theorem generate_answer_outcomes
    (distance : Type) (settings : RAGPipeline.Settings)
    (search : str -> Z -> RAGPipeline.result (list (RAGPipeline.Doc distance)))
    (ollama_generate : str -> str -> str -> RAGPipeline.result str)
    (chat_complete :
       str -> option str -> str -> str -> str -> RAGPipeline.result str)
    (question : str) (top_k : Z) :
  match search question top_k with
  | inl e =>
      RAGPipeline.generate_answer distance settings search ollama_generate
        chat_complete question top_k = inl e
  | inr docs =>
      exists a,
        RAGPipeline.generate_answer distance settings search ollama_generate
          chat_complete question top_k = inr a /\
        RAGPipeline.sources a = map (RAGPipeline.make_source distance) docs /\
        len (RAGPipeline.sources a) = len docs /\
        (docs = [] ->
         RAGPipeline.answer a = RAGPipeline.no_documents_message)
  end.
Proof.
  unfold RAGPipeline.generate_answer, RAGPipeline.bind.
  destruct (search question top_k) as [e | docs]; [reflexivity|].
  destruct docs as [|d docs]; cbn [truthy negb].
  - eexists; split; [reflexivity|]; cbn; auto.
  - eexists; split; [reflexivity|].
    cbn [RAGPipeline.sources RAGPipeline.answer].
    split; [reflexivity|]; split; [|discriminate].
    unfold len; now rewrite length_map.
Qed.

End QueryExtras.

(** * Further properties of the vector store *)

Section IdFacts.

Lemma uint_no_underscore (d : Decimal.uint) :
  Forall (fun c => c <> underscore)
    (lit (DecimalString.NilEmpty.string_of_uint d)).
Proof.
  induction d; cbn; constructor; try assumption; discriminate.
Qed.

Lemma str_of_int_no_underscore (n : Z) :
  Forall (fun c => c <> underscore) (str_of_int n).
Proof.
  unfold str_of_int.
  assert (U : forall d,
             Forall (fun c => c <> underscore)
               (lit (DecimalString.NilZero.string_of_uint d))).
  { intros d; destruct d; try apply uint_no_underscore.
    cbn; repeat constructor; discriminate. }
  destruct (Z.to_int n) as [d | d]; cbn [DecimalString.NilZero.string_of_int].
  - apply U.
  - unfold lit; cbn [list_ascii_of_string].
    constructor; [discriminate | apply U].
Qed.

Lemma lit_inj (a b : string) : lit a = lit b -> a = b.
Proof.
  unfold lit; intros H.
  apply (f_equal string_of_list_ascii) in H.
  now rewrite !string_of_list_ascii_of_string in H.
Qed.

(** [str(n)] tells integers apart. *)
Lemma str_of_int_inj (a b : Z) : str_of_int a = str_of_int b -> a = b.
Proof.
  unfold str_of_int; intros H; apply lit_inj in H.
  assert (N : forall z,
             DecimalString.NilZero.int_of_string
               (DecimalString.NilZero.string_of_int (Z.to_int z))
             = Some (Z.to_int z)).
  { intros z; apply DecimalString.NilZero.isi; destruct z; cbn;
      try discriminate;
      intros [= E]; now apply DecimalPos.Unsigned.to_uint_nonnil in E. }
  pose proof (N a) as Ha; rewrite H, N in Ha.
  injection Ha as Ha; symmetry; now apply DecimalZ.to_int_inj.
Qed.

Lemma split_at_mark (s t x y : str) :
  Forall (fun c => c <> underscore) s ->
  Forall (fun c => c <> underscore) t ->
  s ++ underscore :: x = t ++ underscore :: y -> s = t /\ x = y.
Proof.
  intros Hs; revert t; induction Hs as [|c s Hc Hs IH]; intros t Ht H.
  - destruct Ht as [|c' t Hc' Ht]; cbn in H.
    + injection H as ->; auto.
    + injection H as E _; congruence.
  - destruct Ht as [|c' t Hc' Ht]; cbn in H.
    + injection H as E _; congruence.
    + injection H as -> H.
      destruct (IH t Ht H) as [-> ->]; auto.
Qed.

Lemma joined_inj (f g s t : str) :
  Forall (fun c => c <> underscore) s ->
  Forall (fun c => c <> underscore) t ->
  f ++ lit "_" ++ s = g ++ lit "_" ++ t -> f = g /\ s = t.
Proof.
  intros Hs Ht H.
  apply (f_equal (@rev ascii)) in H.
  change (lit "_") with [underscore] in H.
  rewrite !rev_app_distr in H; cbn [rev app] in H.
  rewrite <- !app_assoc in H; cbn [app] in H.
  apply split_at_mark in H as [E1 E2]; try (now apply Forall_rev).
  apply (f_equal (@rev ascii)) in E1, E2.
  rewrite !rev_involutive in E1, E2; auto.
Qed.

End IdFacts.

Section VectorStoreExtras.
Import VectorStore.
Variable embedding : Type.
Variable encode : str -> embedding.
Variable policy : on_existing.

Lemma has_id_In (c : collection embedding) (i : str) :
  has_id c i = true <-> In i (map e_id c).
Proof.
  unfold has_id; rewrite existsb_exists, in_map_iff; split.
  - intros (e & He & E); apply eqb_str_eq in E; eauto.
  - intros (e & E & He); exists e; split; [assumption|].
    now apply eqb_str_eq.
Qed.

Lemma map_id_put (c : collection embedding) (e : Entry embedding) :
  map e_id (put embedding c e) = map e_id c.
Proof.
  unfold put; rewrite map_map; apply map_ext; intros e'.
  destruct (eqb_str (e_id e') (e_id e)) eqn:E; [|reflexivity].
  apply eqb_str_eq in E; congruence.
Qed.

Lemma add_one_ids (c c' : collection embedding) (e : Entry embedding) :
  add_one embedding policy c e = Some c' ->
  (has_id c (e_id e) = true /\ map e_id c' = map e_id c) \/
  (has_id c (e_id e) = false /\ c' = c ++ [e]).
Proof.
  unfold add_one; destruct (has_id c (e_id e)) eqn:E.
  - destruct policy; intros [= <-]; left; split; auto.
    apply map_id_put.
  - intros [= <-]; now right.
Qed.

Lemma add_one_consistent (c c' : collection embedding)
    (e : Entry embedding) :
  consistent c -> id_matches e ->
  add_one embedding policy c e = Some c' -> consistent c'.
Proof.
  intros [Hm Hn] He H; unfold add_one in H.
  destruct (has_id c (e_id e)) eqn:E.
  - destruct policy; try discriminate; injection H as <-; [now split|].
    split; [|now rewrite map_id_put].
    unfold put; apply Forall_forall; intros x Hx.
    apply in_map_iff in Hx as (e' & <- & He').
    rewrite Forall_forall in Hm.
    destruct (eqb_str (e_id e') (e_id e)); auto.
  - injection H as <-; split.
    + apply Forall_app; split; [assumption | now constructor].
    + rewrite map_app; apply NoDup_app; repeat split; auto.
      * repeat constructor; intros [].
      * intros x Hx [<- | []].
        apply has_id_In in Hx; congruence.
Qed.

Lemma collection_add_consistent (es : list (Entry embedding))
    (c c' : collection embedding) :
  consistent c -> Forall id_matches es ->
  collection_add embedding policy c es = Some c' -> consistent c'.
Proof.
  revert c; induction es as [|e es IH]; intros c Hc He;
    cbn [collection_add].
  - now intros [= <-].
  - inversion He; subst.
    destruct (add_one embedding policy c e) as [c1|] eqn:E; [|discriminate].
    apply IH; [eapply add_one_consistent; eauto | assumption].
Qed.

Lemma collection_add_keeps (es : list (Entry embedding))
    (c c' : collection embedding) (i : str) :
  collection_add embedding policy c es = Some c' ->
  In i (map e_id c) -> In i (map e_id c').
Proof.
  revert c; induction es as [|e es IH]; intros c; cbn [collection_add].
  - now intros [= <-].
  - destruct (add_one embedding policy c e) as [c1|] eqn:E; [|discriminate].
    intros H Hi; apply (IH c1 H).
    destruct (add_one_ids c c1 e E) as [[_ ->] | [_ ->]]; [assumption|].
    rewrite map_app; apply in_or_app; now left.
Qed.

Lemma collection_add_grows (es : list (Entry embedding))
    (c c' : collection embedding) :
  collection_add embedding policy c es = Some c' ->
  len c <= len c' <= len c + len es.
Proof.
  revert c; induction es as [|e es IH]; intros c; cbn [collection_add].
  - intros [= <-]; unfold len; cbn; lia.
  - destruct (add_one embedding policy c e) as [c1|] eqn:E; [|discriminate].
    intros H; specialize (IH c1 H); rewrite len_cons.
    assert (len c <= len c1 <= len c + 1).
    { destruct (add_one_ids c c1 e E) as [[_ Em] | [_ ->]].
      - apply (f_equal (@List.length str)) in Em.
        rewrite !length_map in Em; unfold len; lia.
      - rewrite len_app; unfold len; cbn; lia. }
    lia.
Qed.

Lemma collection_add_fresh (es : list (Entry embedding))
    (c : collection embedding) :
  NoDup (map e_id es) ->
  (forall e, In e es -> ~ In (e_id e) (map e_id c)) ->
  collection_add embedding policy c es = Some (c ++ es).
Proof.
  revert c; induction es as [|e es IH]; intros c Hn Hf;
    cbn [collection_add].
  - now rewrite app_nil_r.
  - cbn [map] in Hn; inversion Hn as [|? ? He Hes]; subst.
    unfold add_one.
    destruct (has_id c (e_id e)) eqn:E.
    + apply has_id_In in E; exfalso; apply (Hf e); [now left | assumption].
    + rewrite IH; [now rewrite <- app_assoc | assumption |].
      intros e' He' Hin; rewrite map_app in Hin.
      apply in_app_or in Hin as [Hin | [Hin | []]].
      * apply (Hf e'); [now right | assumption].
      * apply He; rewrite Hin; now apply in_map.
Qed.

Lemma make_entry_matches (f : str) (chunk : Chunk) :
  id_matches (make_entry embedding encode f chunk).
Proof. reflexivity. Qed.

(** Two records whose ids match their metadata and are equal belong to
    the same filename and chunk. *)
Lemma id_matches_inj (e e' : Entry embedding) :
  id_matches e -> id_matches e' -> e_id e = e_id e' ->
  md_filename (e_metadata e) = md_filename (e_metadata e') /\
  md_chunk_id (e_metadata e) = md_chunk_id (e_metadata e').
Proof.
  unfold id_matches; intros -> -> H.
  apply joined_inj in H as [Hf Hs];
    try apply str_of_int_no_underscore.
  split; [assumption | now apply str_of_int_inj].
Qed.

Lemma delete_document_filter (c : collection embedding) (f : str) :
  Forall id_matches c ->
  delete_document c f
  = filter (fun e => negb (eqb_str (md_filename (e_metadata e)) f)) c.
Proof.
  intros Hm; unfold delete_document.
  set (own := filter (fun e => eqb_str (md_filename (e_metadata e)) f) c).
  assert (Hext : forall e, In e c ->
            mem (e_id e) (map e_id own)
            = eqb_str (md_filename (e_metadata e)) f).
  { rewrite Forall_forall in Hm; intros e He.
    destruct (eqb_str (md_filename (e_metadata e)) f) eqn:E.
    - apply mem_In, in_map; subst own; apply filter_In; auto.
    - destruct (mem (e_id e) (map e_id own)) eqn:E'; [|reflexivity].
      apply mem_In, in_map_iff in E' as (e' & Hid & He').
      subst own; apply filter_In in He' as [He' Hf].
      destruct (id_matches_inj e' e (Hm e' He') (Hm e He) Hid) as [Hfn _].
      rewrite <- Hfn, Hf in E; discriminate. }
  destruct (truthy (map e_id own)) eqn:Et.
  - apply filter_ext_in; intros e He; now rewrite Hext.
  - destruct own eqn:Eo; [|discriminate].
    symmetry; apply forallb_filter_id, forallb_forall; intros e He.
    destruct (eqb_str (md_filename (e_metadata e)) f) eqn:E; [|reflexivity].
    assert (In e own) by (subst own; apply filter_In; auto).
    rewrite Eo in H; destruct H.
Qed.

Lemma NoDup_map_filter {A B} (g : A -> B) (p : A -> bool) (l : list A) :
  NoDup (map g l) -> NoDup (map g (filter p l)).
Proof.
  induction l as [|x l IH]; cbn [map filter]; [trivial|].
  intros N; inversion N as [|? ? Hx Hl]; subst.
  destruct (p x); cbn [map]; [|auto].
  constructor; [|auto].
  intros Hin; apply Hx.
  apply in_map_iff in Hin as (y & E & Hy).
  apply filter_In in Hy as [Hy _].
  rewrite <- E; now apply in_map.
Qed.

Lemma filter_split_length {A} (p : A -> bool) (l : list A) :
  len (filter p l) + len (filter (fun x => negb (p x)) l) = len l.
Proof.
  induction l as [|x l IH]; cbn [filter]; [reflexivity|].
  destruct (p x); cbn [negb]; rewrite !len_cons; lia.
Qed.

End VectorStoreExtras.

Section VectorStoreExtraTheorems.
Import VectorStore.
Variable embedding : Type.
Variable encode : str -> embedding.
Variable policy : on_existing.

(** X18: the composite id tells filename and chunk id apart: two ids
    are equal exactly when both the filenames and the chunk ids are. *)
Theorem composite_id_unique (f g : str) (a b : Chunk) :
  make_id f a = make_id g b <-> f = g /\ chunk_id a = chunk_id b.
Proof.
  unfold make_id; split.
  - intros H; apply joined_inj in H as [Hf Hs];
      try apply str_of_int_no_underscore.
    split; [assumption | now apply str_of_int_inj].
  - intros [-> ->]; reflexivity.
Qed.

(** X19: [VectorStore.add_documents] never removes a record: when it
    returns, every id that was indexed still is, the number of records
    has not dropped and has grown by the number of chunks at most, and
    ids still match their metadata and are distinct if they were. *)
Theorem add_documents_keeps_records
    (c c' : collection embedding) (chunks : list Chunk) (f : str) :
  add_documents encode policy c chunks f = Some c' ->
  (forall i, has_id c i = true -> has_id c' i = true) /\
  len c <= len c' <= len c + len chunks /\
  (consistent c -> consistent c').
Proof.
  unfold add_documents; intros H; split; [|split].
  - intros i Hi; apply has_id_In; apply has_id_In in Hi.
    eapply collection_add_keeps; eauto.
  - pose proof (collection_add_grows embedding policy _ _ _ H) as Hg.
    unfold len in *; rewrite length_map in Hg; exact Hg.
  - intros Hc; eapply collection_add_consistent; [exact Hc | | exact H].
    apply Forall_forall; intros e He.
    apply in_map_iff in He as (chunk & <- & _).
    apply make_entry_matches.
Qed.

(** X20: in a collection whose ids match their metadata,
    [delete_document(f)] removes the records of [f] and no other: what
    is left is the records of the other filenames, in order; [f] is no
    longer listed; and the count drops by the number of records [f]
    had. *)
Theorem vector_delete (c : collection embedding) (f : str) :
  Forall id_matches c ->
  delete_document c f
  = filter (fun e => negb (eqb_str (md_filename (e_metadata e)) f)) c /\
  entries_of (delete_document c f) f = [] /\
  (forall g, g <> f ->
     entries_of (delete_document c f) g = entries_of c g) /\
  ~ In f (list_documents (delete_document c f)) /\
  total_chunks (get_collection_stats (delete_document c f))
  = total_chunks (get_collection_stats c) - len (entries_of c f).
Proof.
  intros Hm; rewrite (delete_document_filter embedding c f Hm).
  split; [reflexivity|].
  assert (E0 : entries_of
                 (filter (fun e =>
                            negb (eqb_str (md_filename (e_metadata e)) f)) c)
                 f = []).
  { unfold entries_of; induction c as [|e c' IH]; cbn [filter]; auto.
    inversion Hm; subst.
    destruct (eqb_str (md_filename (e_metadata e)) f) eqn:E; cbn [negb filter];
      [auto | rewrite E; auto]. }
  split; [exact E0|]; split; [|split].
  - intros g Hg; unfold entries_of.
    clear E0 Hm; induction c as [|e c' IH]; cbn [filter]; auto.
    destruct (eqb_str (md_filename (e_metadata e)) f) eqn:E; cbn [negb filter].
    + apply eqb_str_eq in E.
      destruct (eqb_str (md_filename (e_metadata e)) g) eqn:E';
        [apply eqb_str_eq in E'; congruence | exact IH].
    + destruct (eqb_str (md_filename (e_metadata e)) g); now rewrite IH.
  - intros Hin.
    apply (vector_list_documents_mem embedding) in Hin as (e & He & Hf).
    assert (In e (entries_of
                    (filter (fun e =>
                       negb (eqb_str (md_filename (e_metadata e)) f)) c) f)).
    { unfold entries_of; apply filter_In; split; [assumption|].
      now apply eqb_str_eq. }
    rewrite E0 in H; destruct H.
  - unfold get_collection_stats; cbn [total_chunks]; unfold entries_of.
    pose proof (filter_split_length
                  (fun e => eqb_str (md_filename (e_metadata e)) f) c) as Hl.
    cbv beta in Hl; lia.
Qed.

End VectorStoreExtraTheorems.

Section VectorStoreComposition.
Import VectorStore.
Variable embedding : Type.
Variable encode : str -> embedding.
Variable policy : on_existing.

Lemma make_id_NoDup (f : str) (chunks : list Chunk) :
  NoDup (map chunk_id chunks) ->
  NoDup (map e_id (map (make_entry embedding encode f) chunks)).
Proof.
  induction chunks as [|a chunks IH]; cbn [map]; [constructor|].
  intros N; inversion N as [|? ? Ha Hc]; subst.
  constructor; [|auto].
  intros Hin; apply Ha.
  rewrite map_map in Hin; apply in_map_iff in Hin as (b & E & Hb).
  cbn [make_entry e_id] in E.
  unfold make_id in E.
  apply joined_inj in E as [_ E]; try apply str_of_int_no_underscore.
  apply str_of_int_inj in E; rewrite <- E; now apply in_map.
Qed.

Lemma entries_of_new (f : str) (chunks : list Chunk) :
  entries_of (map (make_entry embedding encode f) chunks) f
  = map (make_entry embedding encode f) chunks.
Proof.
  unfold entries_of; apply forallb_filter_id, forallb_forall.
  intros e He; apply in_map_iff in He as (a & <- & _).
  cbn; apply eqb_str_refl.
Qed.

(** X22: deleting a filename and then adding chunks under it replaces
    its records, whatever the index does with an id it already holds:
    for ids that match their metadata and chunk ids that are distinct,
    the add returns, the records of the filename are then exactly the
    new ones, and the count is the old one less the old records of the
    filename plus the new chunks. *)
Theorem vector_delete_then_add
    (c : collection embedding) (chunks : list Chunk) (f : str) :
  Forall id_matches c -> NoDup (map chunk_id chunks) ->
  let c' := delete_document c f ++ map (make_entry embedding encode f) chunks in
  add_documents encode policy (delete_document c f) chunks f = Some c' /\
  entries_of c' f = map (make_entry embedding encode f) chunks /\
  total_chunks (get_collection_stats c')
  = total_chunks (get_collection_stats c) - len (entries_of c f)
    + len chunks.
Proof.
  intros Hm Hn; cbv zeta.
  pose proof (delete_document_filter embedding c f Hm) as Ed.
  split; [|split].
  - unfold add_documents; apply collection_add_fresh.
    + now apply make_id_NoDup.
    + intros e He Hin.
      apply in_map_iff in He as (a & <- & _).
      apply in_map_iff in Hin as (e' & Hid & He').
      rewrite Ed in He'; apply filter_In in He' as [He' Hf].
      rewrite Forall_forall in Hm.
      destruct (id_matches_inj embedding e'
                  (make_entry embedding encode f a)
                  (Hm e' He') (make_entry_matches embedding encode f a) Hid)
        as [Hfn _].
      cbn in Hfn; rewrite Hfn, eqb_str_refl in Hf; discriminate.
  - unfold entries_of at 1; rewrite filter_app.
    change (filter _ (map (make_entry embedding encode f) chunks))
      with (entries_of (map (make_entry embedding encode f) chunks) f).
    rewrite entries_of_new.
    replace (filter _ (delete_document c f)) with (@nil (Entry embedding));
      [reflexivity|].
    symmetry; rewrite Ed.
    clear Ed Hm; induction c as [|e c0 IH]; cbn [filter]; auto.
    destruct (eqb_str (md_filename (e_metadata e)) f) eqn:E;
      cbn [negb filter]; [auto | rewrite E; auto].
  - unfold get_collection_stats; cbn [total_chunks].
    rewrite len_app, Ed; unfold entries_of.
    pose proof (filter_split_length
                  (fun e => eqb_str (md_filename (e_metadata e)) f) c) as Hl.
    cbv beta in Hl.
    unfold len at 2; rewrite length_map; fold (len chunks); lia.
Qed.

(** X21: deleting a filename that has no record changes nothing. *)
Theorem vector_delete_missing (c : collection embedding) (f : str) :
  entries_of c f = [] ->
  delete_document c f = c /\
  get_collection_stats (delete_document c f) = get_collection_stats c.
Proof.
  intros H; unfold delete_document.
  change (filter (fun e => eqb_str (md_filename (e_metadata e)) f) c)
    with (entries_of c f).
  rewrite H; cbn [map truthy]; auto.
Qed.

(** X24: the statistics of a collection never count more documents
    than chunks, count no document exactly when there is no record, and
    list the documents as [list_documents] does. *)
Theorem vector_stats_bounds (c : collection embedding) :
  0 <= total_documents (get_collection_stats c)
    <= total_chunks (get_collection_stats c) /\
  (total_documents (get_collection_stats c) = 0 <-> c = []) /\
  documents (get_collection_stats c) = list_documents c.
Proof.
  unfold get_collection_stats; cbn [total_documents total_chunks documents].
  assert (Hn : NoDup (list_documents c)).
  { unfold list_documents.
    destruct (negb (truthy (map e_metadata c))); [constructor|].
    apply sorted_names_NoDup, sorted_sorted, set_of_NoDup. }
  assert (Hi : incl (list_documents c)
                 (map (fun e => md_filename (e_metadata e)) c)).
  { intros f Hf.
    apply (vector_list_documents_mem embedding) in Hf as (e & He & <-).
    apply in_map_iff; eauto. }
  pose proof (NoDup_incl_length Hn Hi) as Hle; rewrite length_map in Hle.
  split; [unfold len; lia|]; split; [|reflexivity].
  split.
  - intros H0; destruct c as [|e c0]; [reflexivity|exfalso].
    apply len_zero_nil in H0.
    assert (In (md_filename (e_metadata e)) (list_documents (e :: c0))).
    { unfold list_documents; cbn [map truthy negb].
      rewrite sorted_In, set_of_In; now left. }
    rewrite H0 in H; destruct H.
  - intros ->; reflexivity.
Qed.

End VectorStoreComposition.

Section VectorStoreWitnesses.
Import VectorStore.

Lemma two_records_match : Forall id_matches two_records.
Proof. repeat constructor. Qed.

Lemma add_documents_keeps_records_witness :
  len (@nil (Entry unit)) <= len two_records <= len (@nil (Entry unit)) + 2.
Proof.
  exact (proj1 (proj2
           (add_documents_keeps_records unit (fun _ => tt) Skip
              [] two_records [one; two] (lit "a.txt") eq_refl))).
Defined.

Lemma vector_delete_witness :
  entries_of (delete_document two_records (lit "a.txt")) (lit "a.txt") = [].
Proof.
  exact (proj1 (proj2
           (vector_delete unit two_records (lit "a.txt")
              two_records_match))).
Defined.

Lemma vector_delete_then_add_witness :
  add_documents (fun _ => tt) Reject
    (delete_document two_records (lit "a.txt")) [uno] (lit "a.txt")
  = Some (delete_document two_records (lit "a.txt")
          ++ map (make_entry unit (fun _ => tt) (lit "a.txt")) [uno]).
Proof.
  exact (proj1
           (vector_delete_then_add unit (fun _ => tt) Reject
              two_records [uno] (lit "a.txt") two_records_match
              ltac:(repeat constructor; intros []))).
Defined.

Lemma vector_delete_missing_witness :
  delete_document two_records (lit "b.txt") = two_records.
Proof.
  exact (proj1 (vector_delete_missing unit two_records (lit "b.txt")
                  eq_refl)).
Defined.

End VectorStoreWitnesses.

Section MoreWitnesses.

Lemma ephemeral_add_lookup_witness :
  stored (EphemeralStore.add_documents pets [uno] (lit "b.txt"))
    (lit "pets.txt")
  = stored pets (lit "pets.txt").
Proof.
  exact (proj1 (proj2
           (ephemeral_add_lookup pets [uno] (lit "b.txt")))
           (lit "pets.txt") ltac:(discriminate)).
Defined.

Lemma source_text_bounded_witness :
  RAGPipeline.source_text hello = hello.
Proof.
  exact (proj1 (proj2 (proj2 (source_text_bounded hello)))
           ltac:(vm_compute; discriminate)).
Defined.

Lemma query_outcomes_witness :
  match MainEphemeral.query None (lit "gpt-4o-mini") pets (lit "cat sat") with
  | inl e => MainEphemeral.status_code e = 500
  | inr _ => False
  end.
Proof.
  pose proof (query_outcomes None (lit "gpt-4o-mini") pets (lit "cat sat"))
    as H.
  cbv zeta in H.
  destruct (MainEphemeral.query None (lit "gpt-4o-mini") pets (lit "cat sat"))
    as [e | resp].
  - destruct H as [[_ H] | [H _]]; [discriminate H | exact H].
  - destruct H as (_ & _ & _ & _ & H).
    destruct (H ltac:(discriminate)) as (create & Hc & _); discriminate Hc.
Defined.

Lemma generate_answer_outcomes_witness :
  exists a,
    RAGPipeline.generate_answer unit groq_settings
      (fun _ _ => inr []) (fun _ _ _ => inr []) (fun _ _ _ _ _ => inr [])
      (lit "who sat?") 3 = inr a /\
    RAGPipeline.answer a = RAGPipeline.no_documents_message.
Proof.
  destruct (generate_answer_outcomes unit groq_settings
              (fun _ _ => inr []) (fun _ _ _ => inr [])
              (fun _ _ _ _ _ => inr []) (lit "who sat?") 3)
    as (a & Ha & _ & _ & Hm).
  exists a; split; [exact Ha | exact (Hm eq_refl)].
Defined.

End MoreWitnesses.
